(** * useBatch: a timer- and threshold-bounded batching queue

    Shallow embedding of the React hook [useBatch] (hooks/src/useBatch.ts).
    The three refs of the hook ([batchRef], [queueRef], [timeoutRef]) and the
    part of the browser it talks to (pending timeouts, the timer id counter)
    form one record, [world]; every function of the hook is a function on
    worlds.  What happens in a run (calls of [_enqueueBatch], [setTimeout],
    [clearTimeout] and [onBatchCallback], timeouts that elapse) is recorded,
    oldest first, in the world's [trace].

    Scope of the model:
    - JS numbers are integers ([Z]); [NaN] and fractions are not modelled.
    - A payload is an object with own properties only (the source documents
      [data] as "Payload of the batch in object"); objects are compared by
      reference, as [Map] and [Set] do (SameValueZero).
    - [onHitCallback] is a pure function.  [onBatchCallback] may call back
      into [addQueue] synchronously; the calls it makes are a function of
      the batch it is handed.  Nested flushes are bounded by a fuel, [None]
      standing for a recursion that does not come back. *)

From stdpp Require Import base option list gmap strings countable pretty.
From Stdlib Require Import ZArith.

Local Open Scope Z_scope.

(** ** JavaScript values *)

Inductive value : Type :=
| VUndefined
| VNull
| VBool (b : bool)
| VNum (n : Z)
| VStr (s : string)
| VObj (ref : nat).

#[global] Instance value_eq_dec : EqDecision value.
Proof. solve_decision. Defined.

Definition value_code (v : value) : unit + unit + bool + Z + string + nat :=
  match v with
  | VUndefined => inl (inl (inl (inl (inl tt))))
  | VNull => inl (inl (inl (inl (inr tt))))
  | VBool b => inl (inl (inl (inr b)))
  | VNum n => inl (inl (inr n))
  | VStr s => inl (inr s)
  | VObj r => inr r
  end.

Definition value_decode (c : unit + unit + bool + Z + string + nat) : value :=
  match c with
  | inl (inl (inl (inl (inl _)))) => VUndefined
  | inl (inl (inl (inl (inr _)))) => VNull
  | inl (inl (inl (inr b))) => VBool b
  | inl (inl (inr n)) => VNum n
  | inl (inr s) => VStr s
  | inr r => VObj r
  end.

#[global] Instance value_countable : Countable value.
Proof.
  apply (inj_countable' value_code value_decode).
  intros []; reflexivity.
Defined.

(** JS truthiness: [undefined], [null], [false], [0] and [''] are falsy. *)
Definition truthy (v : value) : bool :=
  match v with
  | VUndefined | VNull => false
  | VBool b => b
  | VNum n => negb (n =? 0)
  | VStr s => negb (bool_decide (s = ""%string))
  | VObj _ => true
  end.

(** [a || b] *)
Definition js_or (a b : value) : value := if truthy a then a else b.

(** [o || d] for an optional number: [undefined] and [0] give [d]. *)
Definition num_or (o : option Z) (d : Z) : Z :=
  match o with
  | Some n => if n =? 0 then d else n
  | None => d
  end.

(** A property name as the options give it: [string | number]. *)
Inductive prop_name : Type :=
| PStr (s : string)
| PNum (n : Z).

(** [p || ''] for an optional property name. *)
Definition name_or_empty (o : option prop_name) : prop_name :=
  match o with
  | Some (PStr s) => if bool_decide (s = ""%string) then PStr "" else PStr s
  | Some (PNum n) => if n =? 0 then PStr "" else PNum n
  | None => PStr ""
  end.

(** The property key a name denotes in [data[name]]: a number is read
    through its decimal string. *)
Definition to_property_key (p : prop_name) : string :=
  match p with
  | PStr s => s
  | PNum n => pretty n
  end.

(** A payload object: its identity and its own properties. *)
Record payload : Type := Payload {
  ref : nat;
  props : gmap string value
}.

(** [data[name]] *)
Definition get_prop (data : payload) (name : prop_name) : value :=
  default VUndefined (props data !! to_property_key name).

(** ** Options *)

(** One synchronous call [addQueue(data)] made while the clock reads [now]. *)
Definition call : Type := Z * payload.

Record BatchOptionsInterface : Type := BatchOptions {
  timeout : option Z;
  threshold : option Z;
  batchKey : option prop_name;
  onHitCallback : option (payload -> value);
  onBatchCallback : option (list value -> list call)
}.

(** ** The world: the hook's refs and the timers of its environment *)

Inductive event : Type :=
| EvEnqueue (key item : value)          (* _enqueueBatch(key, item) *)
| EvSetTimeout (h : positive) (ms : Z)  (* setTimeout(.., ms) returned h *)
| EvClearTimeout (h : positive)         (* clearTimeout(h) *)
| EvBatch (items : list value)          (* onBatchCallback(items) *)
| EvTimer (h : positive).               (* the timeout h elapsed, its closure runs *)

Record world : Type := World {
  batchRef : gmap value value;      (* Map<string | number, any> *)
  queueRef : list value;            (* Set<any>, in insertion order *)
  timeoutRef : option positive;     (* null, or the id setTimeout returned *)
  timers : gmap positive Z;         (* pending timeouts of this hook: id, delay *)
  next_timer : positive;            (* the id the next setTimeout returns *)
  trace : list event
}.

Definition init : world :=
  {| batchRef := ∅; queueRef := []; timeoutRef := None;
     timers := ∅; next_timer := 1%positive; trace := [] |}.

Definition log (e : event) (w : world) : world :=
  {| batchRef := batchRef w; queueRef := queueRef w; timeoutRef := timeoutRef w;
     timers := timers w; next_timer := next_timer w; trace := trace w ++ [e] |}.

(** [Set.prototype.add]: a value already in the set keeps its place. *)
Definition set_add (item : value) (q : list value) : list value :=
  if bool_decide (item ∈ q) then q else q ++ [item].

(** The batches handed to [onBatchCallback] so far, oldest first. *)
Definition batches (t : list event) : list (list value) :=
  omap (fun e => match e with EvBatch items => Some items | _ => None end) t.

(** The items [_enqueueBatch] was called with so far, oldest first. *)
Definition enqueued (t : list event) : list value :=
  omap (fun e => match e with EvEnqueue _ item => Some item | _ => None end) t.

(** ** The hook *)

Section useBatch.

Variable options : BatchOptionsInterface.

Definition TIMEOUT : Z := num_or (timeout options) 10.
Definition THRESHOLD : Z := num_or (threshold options) 1.
Definition BATCH_KEY : prop_name := name_or_empty (batchKey options).

Definition getQueue (w : world) : list value := queueRef w.

Definition getBatch (w : world) : gmap value value := batchRef w.

(** [batchRef.current.set(key, item); queueRef.current.add(item)] *)
Definition _enqueueBatch (key item : value) (w : world) : world :=
  {| batchRef := <[key := item]> (batchRef w);
     queueRef := set_add item (queueRef w);
     timeoutRef := timeoutRef w;
     timers := timers w; next_timer := next_timer w;
     trace := trace w ++ [EvEnqueue key item] |}.

(** The first half of [_consumeQueue]: cancel the scheduler.  A timer id
    is a positive number, so [if (timeoutRef.current)] tests for [null]. *)
Definition clear_scheduler (w : world) : world :=
  match timeoutRef w with
  | Some h =>
      {| batchRef := batchRef w; queueRef := queueRef w;
         timeoutRef := None;
         timers := delete h (timers w); next_timer := next_timer w;
         trace := trace w ++ [EvClearTimeout h] |}
  | None => w
  end.

(** [queueRef.current.clear()] *)
Definition clear_queue (w : world) : world :=
  {| batchRef := batchRef w; queueRef := [];
     timeoutRef := timeoutRef w;
     timers := timers w; next_timer := next_timer w; trace := trace w |}.

(** [batchRef.current.clear()] *)
Definition clear_batch (w : world) : world :=
  {| batchRef := ∅; queueRef := queueRef w;
     timeoutRef := timeoutRef w;
     timers := timers w; next_timer := next_timer w; trace := trace w |}.

(** [setTimeout] returns a fresh id; the closure it arms is [timer_fires]. *)
Definition _scheduleQueueConsumption (w : world) : world :=
  let h := next_timer w in
  {| batchRef := batchRef w; queueRef := queueRef w;
     timeoutRef := Some h;
     timers := <[h := TIMEOUT]> (timers w); next_timer := Pos.succ h;
     trace := trace w ++ [EvSetTimeout h TIMEOUT] |}.

(** [data[BATCH_KEY] || Date.now()] *)
Definition key_of (now : Z) (data : payload) : value :=
  js_or (get_prop data BATCH_KEY) (VNum now).

(** The payload as it is queued. *)
Definition hit (data : payload) : value :=
  match onHitCallback options with
  | Some f => f data
  | None => VObj (ref data)
  end.

(** [if (!timeoutRef.current) _scheduleQueueConsumption()] *)
Definition schedule_if_idle (w : world) : world :=
  match timeoutRef w with
  | None => _scheduleQueueConsumption w
  | Some _ => w
  end.

(** [addQueue], with the flush it ends in left open. *)
Definition addQueue_with (consume : world -> option world)
    (now : Z) (data : payload) (w : world) : option world :=
  let key := key_of now data in
  if bool_decide (is_Some (batchRef w !! key)) then Some w
  else
    let w2 := schedule_if_idle (_enqueueBatch key (hit data) w) in
    if bool_decide (THRESHOLD <= Z.of_nat (length (queueRef w2)))
    then consume w2 else Some w2.

(** The calls a consumer makes, one after the other. *)
Fixpoint run_calls (add : Z -> payload -> world -> option world)
    (cs : list call) (w : world) : option world :=
  match cs with
  | [] => Some w
  | (now, data) :: cs' =>
      match add now data w with
      | Some w' => run_calls add cs' w'
      | None => None
      end
  end.

(** The call of [onBatchCallback] in [_consumeQueue]: the batch is a copy
    of the queue; the callback's own calls of [addQueue] run before it
    returns. *)
Definition notify (reenter : list call -> world -> option world)
    (w : world) : option world :=
  match onBatchCallback options with
  | Some cb =>
      if bool_decide (length (queueRef w) ≠ 0%nat)
      then reenter (cb (queueRef w)) (log (EvBatch (queueRef w)) w)
      else Some w
  | None => Some w
  end.

(** [_consumeQueue]: cancel the scheduler, hand the queue to the consumer
    if there is one and the queue is not empty, then empty the queue.
    [fuel] bounds the flushes nested in the consumer's own calls. *)
Fixpoint _consumeQueue (fuel : nat) (w : world) : option world :=
  let nested : world -> option world :=
    match fuel with
    | O => fun _ => None
    | S fuel' => _consumeQueue fuel'
    end in
  match notify (run_calls (addQueue_with nested)) (clear_scheduler w) with
  | Some w1 => Some (clear_queue w1)
  | None => None
  end.

(** What [onBatchCallback] may do with [fuel] nested flushes left. *)
Definition reenter (fuel : nat) : list call -> world -> option world :=
  run_calls (addQueue_with
    match fuel with
    | O => fun _ => None
    | S fuel' => _consumeQueue fuel'
    end).

(** [addQueue(data)], called while the clock reads [now]. *)
Definition addQueue (fuel : nat) : Z -> payload -> world -> option world :=
  addQueue_with (_consumeQueue fuel).

(** [_cleanupQueue]: on unmount and on [beforeunload]. *)
Definition _cleanupQueue (fuel : nat) (w : world) : option world :=
  match _consumeQueue fuel w with
  | Some w1 => Some (clear_queue (clear_batch w1))
  | None => None
  end.

(** The timeout [h] elapses: the browser drops it from its pending timers. *)
Definition expire (h : positive) (w : world) : world :=
  {| batchRef := batchRef w; queueRef := queueRef w;
     timeoutRef := timeoutRef w;
     timers := delete h (timers w); next_timer := next_timer w;
     trace := trace w ++ [EvTimer h] |}.

(** A pending timeout elapses and the closure [_scheduleQueueConsumption]
    armed runs. *)
Definition timer_fires (fuel : nat) (h : positive) (w : world) : option world :=
  match timers w !! h with
  | None => Some w
  | Some _ =>
      if bool_decide (length (queueRef (expire h w)) ≠ 0%nat)
      then _consumeQueue fuel (expire h w) else Some (expire h w)
  end.

End useBatch.

(** ** A consumer that does not call back *)

(** [onBatchCallback], when given, makes no synchronous call of [addQueue]. *)
Definition quiet (options : BatchOptionsInterface) : Prop :=
  ∀ cb items, onBatchCallback options = Some cb → cb items = [].

(** The call of [onBatchCallback] in [_consumeQueue], seen from the trace. *)
Definition deliver (options : BatchOptionsInterface) (w : world) : world :=
  match onBatchCallback options with
  | Some _ =>
      if bool_decide (length (queueRef w) ≠ 0%nat)
      then log (EvBatch (queueRef w)) w else w
  | None => w
  end.

(** [_consumeQueue] for a consumer that does not call back. *)
Definition flush (options : BatchOptionsInterface) (w : world) : world :=
  clear_queue (deliver options (clear_scheduler w)).

(** ** Runs of the hook *)

(** One thing that happens to a mounted hook: a call of [addQueue], a
    pending timeout that elapses, or a teardown (unmount, [beforeunload]). *)
Inductive step (options : BatchOptionsInterface) (w w' : world) : Prop :=
| step_addQueue (fuel : nat) (now : Z) (data : payload) :
    addQueue options fuel now data w = Some w' → step options w w'
| step_timer (fuel : nat) (h : positive) :
    is_Some (timers w !! h) →
    timer_fires options fuel h w = Some w' → step options w w'
| step_cleanup (fuel : nat) :
    _cleanupQueue options fuel w = Some w' → step options w w'.

Definition reachable (options : BatchOptionsInterface) (w : world) : Prop :=
  rtc (step options) init w.

(** ** Notions the properties are stated with *)

(** A pending timeout is the one [timeoutRef] holds. *)
Definition timer_inv (w : world) : Prop :=
  ∀ h, is_Some (timers w !! h) → timeoutRef w = Some h.

(** The timeouts a trace leaves pending. *)
Definition timer_step (s : gset positive) (e : event) : gset positive :=
  match e with
  | EvSetTimeout h _ => {[h]} ∪ s
  | EvClearTimeout h | EvTimer h => s ∖ {[h]}
  | EvEnqueue _ _ | EvBatch _ => s
  end.

Definition pending_of (t : list event) : gset positive :=
  foldl timer_step ∅ t.

(** Every [setTimeout] of the trace found no timeout pending. *)
Definition one_at_a_time (t : list event) : Prop :=
  ∀ p h ms q, t = p ++ EvSetTimeout h ms :: q → pending_of p = ∅.

(** Every [onBatchCallback] of the trace found no timeout pending. *)
Definition callback_after_cancel (t : list event) : Prop :=
  ∀ p items q, t = p ++ EvBatch items :: q → pending_of p = ∅.

(** How often [v] occurs in a batch. *)
Definition occurrences (v : value) (l : list value) : nat :=
  length (filter (λ x, x = v) l).

Definition set_timeout (t : option Z) (o : BatchOptionsInterface) :=
  {| timeout := t; threshold := threshold o; batchKey := batchKey o;
     onHitCallback := onHitCallback o; onBatchCallback := onBatchCallback o |}.

Definition set_threshold (n : option Z) (o : BatchOptionsInterface) :=
  {| timeout := timeout o; threshold := n; batchKey := batchKey o;
     onHitCallback := onHitCallback o; onBatchCallback := onBatchCallback o |}.

Definition set_batchKey (k : option prop_name) (o : BatchOptionsInterface) :=
  {| timeout := timeout o; threshold := threshold o; batchKey := k;
     onHitCallback := onHitCallback o; onBatchCallback := onBatchCallback o |}.

(** Two option records the hook cannot tell apart. *)
Definition same_behaviour (o1 o2 : BatchOptionsInterface) : Prop :=
  ∀ fuel w,
    (∀ now data, addQueue o1 fuel now data w = addQueue o2 fuel now data w) ∧
    (∀ h, timer_fires o1 fuel h w = timer_fires o2 fuel h w) ∧
    _cleanupQueue o1 fuel w = _cleanupQueue o2 fuel w.

(** The payload has no truthy value under the configured field. *)
Definition lacks_field (options : BatchOptionsInterface) (data : payload) : Prop :=
  truthy (get_prop data (BATCH_KEY options)) = false.

(** The invariant of the pending timeout, on the state and on the trace. *)
Definition timers_tracked (w : world) : Prop :=
  timer_inv w ∧ pending_of (trace w) = dom (timers w) ∧
  one_at_a_time (trace w) ∧ callback_after_cancel (trace w).

(** A handle is held exactly while the queue is non-empty, and the handle
    held is that of a pending timeout. *)
Definition settled (options : BatchOptionsInterface) (w : world) : Prop :=
  (timeoutRef w = None ↔ queueRef w = []) ∧
  (∀ h, timeoutRef w = Some h → timers w !! h = Some (TIMEOUT options)).

(** The trace of [w] starts with [t]. *)
Definition extends (t : list event) (w : world) : Prop :=
  ∃ rest, trace w = t ++ rest.

(** One step of a run when the consumer does not call back. *)
Inductive quiet_step (options : BatchOptionsInterface) (w : world) : world → Prop :=
| qs_dropped : quiet_step options w w
| qs_queued key item :
    batchRef w !! key = None →
    quiet_step options w (schedule_if_idle options (_enqueueBatch key item w))
| qs_queued_flushed key item :
    batchRef w !! key = None →
    quiet_step options w
      (flush options (schedule_if_idle options (_enqueueBatch key item w)))
| qs_timer_flushed h :
    length (queueRef w) ≠ 0%nat → quiet_step options w (flush options (expire h w))
| qs_timer_idle h :
    queueRef w = [] → quiet_step options w (expire h w)
| qs_teardown :
    quiet_step options w (clear_queue (clear_batch (flush options w))).

(** What was handed over and what is still queued is what was accepted. *)
Definition in_arrival_order (w : world) : Prop :=
  NoDup (enqueued (trace w)) →
  concat (batches (trace w)) ++ queueRef w = enqueued (trace w).

(** ** Further notions for [useBatch] *)

(** The keys [_enqueueBatch] was called with, oldest first. *)
Definition enqueued_keys (t : list event) : list value :=
  omap (fun e => match e with EvEnqueue key _ => Some key | _ => None end) t.

(** A step that is not a teardown. *)
Inductive live_step (options : BatchOptionsInterface) (w w' : world) : Prop :=
| live_addQueue (fuel : nat) (now : Z) (data : payload) :
    addQueue options fuel now data w = Some w' → live_step options w w'
| live_timer (fuel : nat) (h : positive) :
    is_Some (timers w !! h) →
    timer_fires options fuel h w = Some w' → live_step options w w'.

(** Since [w0], the map has kept what it had, and the keys enqueued are new
    ones, each once. *)
Definition grown_from (w0 w : world) : Prop :=
  batchRef w0 ⊆ batchRef w ∧
  ∃ t, trace w = trace w0 ++ t ∧
       NoDup (enqueued_keys t) ∧
       ∀ k, k ∈ enqueued_keys t →
            batchRef w0 !! k = None ∧ is_Some (batchRef w !! k).

(** Every batch handed over is a non-empty list without duplicates. *)
Definition batches_well_formed (w : world) : Prop :=
  NoDup (queueRef w) ∧
  ∀ b, b ∈ batches (trace w) → b ≠ [] ∧ NoDup b.

(** The queue is flushed before it holds [THRESHOLD] items, and no batch
    holds more than [THRESHOLD] (one, for a threshold below one). *)
Definition within_threshold (options : BatchOptionsInterface) (w : world) : Prop :=
  (queueRef w = [] ∨ Z.of_nat (length (queueRef w)) < THRESHOLD options) ∧
  ∀ b, b ∈ batches (trace w) →
       Z.of_nat (length b) <= Z.max 1 (THRESHOLD options).

(** Every queued value is a value of the map. *)
Definition queue_recorded (w : world) : Prop :=
  ∀ v, v ∈ queueRef w → ∃ k, batchRef w !! k = Some v.

(** ** Scripted runs *)

Inductive op : Type :=
| Add (now : Z) (data : payload)   (* addQueue(data), the clock reading now *)
| Timer (h : positive)             (* the timeout h elapses *)
| Teardown.                        (* unmount or beforeunload *)

Definition do_op (options : BatchOptionsInterface) (fuel : nat)
    (o : op) (w : world) : option world :=
  match o with
  | Add now data => addQueue options fuel now data w
  | Timer h => timer_fires options fuel h w
  | Teardown => _cleanupQueue options fuel w
  end.

Fixpoint run (options : BatchOptionsInterface) (fuel : nat)
    (ops : list op) (w : world) : option world :=
  match ops with
  | [] => Some w
  | o :: ops' =>
      match do_op options fuel o w with
      | Some w' => run options fuel ops' w'
      | None => None
      end
  end.

(** ** Sample options and payloads *)

(** The object [{ id }] at address [r]. *)
Definition item (r : nat) (id : Z) : payload :=
  Payload r {[ "id"%string := VNum id ]}.

(** Keyed by [id], a consumer that only takes the batch. *)
Definition by_id (n : option Z) : BatchOptionsInterface :=
  {| timeout := None; threshold := n; batchKey := Some (PStr "id");
     onHitCallback := None; onBatchCallback := Some (λ _, []) |}.

(** As [by_id], every payload queued as the string ['x']. *)
Definition all_x (n : option Z) : BatchOptionsInterface :=
  {| timeout := None; threshold := n; batchKey := Some (PStr "id");
     onHitCallback := Some (λ _, VStr "x"); onBatchCallback := Some (λ _, []) |}.

(** No [batchKey]: keyed by the clock. *)
Definition by_clock (n : option Z) : BatchOptionsInterface :=
  {| timeout := None; threshold := n; batchKey := None;
     onHitCallback := None; onBatchCallback := Some (λ _, []) |}.

(** Keyed by [id]; the consumer answers a batch of one item by queueing
    [{id: 99}] itself, at clock reading 5. *)
Definition calls_back (n : option Z) : BatchOptionsInterface :=
  {| timeout := None; threshold := n; batchKey := Some (PStr "id");
     onHitCallback := None;
     onBatchCallback :=
       Some (λ items, match items with
                      | [_] => [(5, item 9 99)]
                      | _ => []
                      end) |}.

(** The world a script leaves, from the initial one. *)
Definition after (options : BatchOptionsInterface) (ops : list op) : world :=
  default init (run options 0 ops init).

(** Threshold 2, one payload [{id: 7}] queued, its timer pending. *)
Definition one_queued : world := after (by_id (Some 2)) [Add 0 (item 1 7)].

(** * useIdleCallback

    The effect of [useIdleCallback] (hooks/src/useIdleCallback.ts) asks the
    browser to run [callback] in an idle period, or after [fallbackInterval]
    milliseconds where [requestIdleCallback] does not exist, and returns
    the function that takes the request back.  The callback itself is any
    function; the browser record counts how often it has run. *)

Module Idle.

Record IdleRequestOptions : Type := {
  timeout : Z
}.

Record IdleCallbackInterface : Type := {
  fallbackInterval : option Z;
  shouldSkip : option bool;
  options : option IdleRequestOptions
}.

Record browser : Type := {
  has_requestIdleCallback : bool;      (* window.requestIdleCallback is defined *)
  timeouts : gmap positive Z;          (* pending setTimeout(callback, ms): id, ms *)
  idle_requests : gmap positive (option IdleRequestOptions);
                                       (* pending requestIdleCallback(callback, options) *)
  next_timeout : positive;
  next_idle : positive;
  calls : nat                          (* how often callback has run *)
}.

(** The function the effect returns, by the variables it closes over. *)
Inductive cleanup : Type :=
| clear_fallback (timeout : positive)     (* timeout set, no idleCallback *)
| cancel_idle (idleCallback : positive).  (* timeout undefined *)

(** Default parameters: they replace [undefined] only. *)
Definition FALLBACK_INTERVAL (p : IdleCallbackInterface) : Z :=
  default 50 (fallbackInterval p).

Definition SHOULD_SKIP (p : IdleCallbackInterface) : bool :=
  default false (shouldSkip p).

(** The body of the effect. *)
Definition effect (p : IdleCallbackInterface) (b : browser)
    : option cleanup * browser :=
  if SHOULD_SKIP p then (None, b)
  else if negb (has_requestIdleCallback b) then
    let h := next_timeout b in
    (Some (clear_fallback h),
     {| has_requestIdleCallback := has_requestIdleCallback b;
        timeouts := <[h := FALLBACK_INTERVAL p]> (timeouts b);
        idle_requests := idle_requests b;
        next_timeout := Pos.succ h; next_idle := next_idle b;
        calls := calls b |})
  else
    let h := next_idle b in
    (Some (cancel_idle h),
     {| has_requestIdleCallback := has_requestIdleCallback b;
        timeouts := timeouts b;
        idle_requests := <[h := options p]> (idle_requests b);
        next_timeout := next_timeout b; next_idle := Pos.succ h;
        calls := calls b |}).

(** [if (timeout) clearTimeout(timeout)], and in the second function also
    [cancelIdleCallback(idleCallback)]. *)
Definition run_cleanup (c : cleanup) (b : browser) : browser :=
  match c with
  | clear_fallback h =>
      {| has_requestIdleCallback := has_requestIdleCallback b;
         timeouts := delete h (timeouts b);
         idle_requests := idle_requests b;
         next_timeout := next_timeout b; next_idle := next_idle b;
         calls := calls b |}
  | cancel_idle h =>
      {| has_requestIdleCallback := has_requestIdleCallback b;
         timeouts := timeouts b;
         idle_requests := delete h (idle_requests b);
         next_timeout := next_timeout b; next_idle := next_idle b;
         calls := calls b |}
  end.

(** A component using the hook: the cleanup of its last effect, if any, and
    the browser. *)
Record component : Type := {
  current : option cleanup;
  env : browser
}.

Definition cleaned (m : component) : browser :=
  match current m with
  | Some c => run_cleanup c (env m)
  | None => env m
  end.

(** The effect runs, on mount or when a dependency has changed: the last
    cleanup first, then the body. *)
Definition render (p : IdleCallbackInterface) (m : component) : component :=
  {| current := fst (effect p (cleaned m)); env := snd (effect p (cleaned m)) |}.

Definition unmount (m : component) : component :=
  {| current := None; env := cleaned m |}.

Definition called (b : browser) : browser :=
  {| has_requestIdleCallback := has_requestIdleCallback b;
     timeouts := timeouts b; idle_requests := idle_requests b;
     next_timeout := next_timeout b; next_idle := next_idle b;
     calls := S (calls b) |}.

(** The pending timeout [h] elapses: the browser drops it and runs
    [callback]. *)
Definition timeout_elapses (h : positive) (m : component) : component :=
  match timeouts (env m) !! h with
  | Some _ =>
      {| current := current m;
         env := called (run_cleanup (clear_fallback h) (env m)) |}
  | None => m
  end.

(** An idle period comes for the pending request [h]. *)
Definition idle_period (h : positive) (m : component) : component :=
  match idle_requests (env m) !! h with
  | Some _ =>
      {| current := current m;
         env := called (run_cleanup (cancel_idle h) (env m)) |}
  | None => m
  end.

Inductive op : Type :=
| Render (p : IdleCallbackInterface)
| Unmount
| Timeout (h : positive)
| IdlePeriod (h : positive).

Definition do_op (o : op) (m : component) : component :=
  match o with
  | Render p => render p m
  | Unmount => unmount m
  | Timeout h => timeout_elapses h m
  | IdlePeriod h => idle_period h m
  end.

Definition run (ops : list op) (m : component) : component :=
  foldl (λ m o, do_op o m) m ops.

(** Before the first render, in a browser with or without
    [requestIdleCallback]. *)
Definition initial (supported : bool) : component :=
  {| current := None;
     env := {| has_requestIdleCallback := supported;
               timeouts := ∅; idle_requests := ∅;
               next_timeout := 1%positive; next_idle := 1%positive;
               calls := 0 |} |}.

(** How many requests are pending. *)
Definition pending (b : browser) : nat :=
  (size (timeouts b) + size (idle_requests b))%nat.

(** The one pending request is the one the cleanup takes back. *)
Definition tracked (m : component) : Prop :=
  match current m with
  | None => timeouts (env m) = ∅ ∧ idle_requests (env m) = ∅
  | Some (clear_fallback h) =>
      delete h (timeouts (env m)) = ∅ ∧ idle_requests (env m) = ∅
  | Some (cancel_idle h) =>
      timeouts (env m) = ∅ ∧ delete h (idle_requests (env m)) = ∅
  end.

(** The renders of a script that do not skip. *)
Definition requests (ops : list op) : nat :=
  sum_list_with (λ o, match o with
                      | Render p => if SHOULD_SKIP p then 0 else 1
                      | _ => 0
                      end)%nat ops.

(** A script in which only the browser acts. *)
Definition browser_only (ops : list op) : Prop :=
  Forall (λ o, match o with Timeout _ | IdlePeriod _ => True | _ => False end) ops.

End Idle.

(** * usePageType

    The effect of [usePageType] (hooks/src/usePageType.ts) reports the page
    type to the page's globals and, 300 ms later, to [setPageView].  The
    variable [timeout] belongs to the module: all components that use the
    hook share it.  [setPageView] is any function (a no-op when omitted);
    the state records the arguments it was called with. *)

Module Page.

Record props : Type := {
  pageType : option string;
  path : option string;
  pathRoute : option string;
  sendGlobalPageType : option bool
}.

Inductive newrelic_call : Type :=
| setPageViewName (name host : string)
| setCurrentRouteName (name : string)
| setCustomAttribute (name value : string).

Record state : Type := {
  __PAGE_TYPE__ : option string;            (* window.__PAGE_TYPE__ *)
  dataLayer : option (list string);         (* undefined, or the page_type pushed *)
  newrelic : option (list newrelic_call);   (* undefined, or the calls made *)
  hostname : string;                        (* window.location.hostname *)
  timers : gmap positive (Z * string);      (* pending: id, delay, argument *)
  next_timer : positive;
  timeout : option positive;                (* let timeout = null *)
  page_views : list string                  (* setPageView(..) calls *)
}.

(** A string is truthy when it is not empty. *)
Definition truthy (s : string) : bool := negb (bool_decide (s = ""%string)).

(** [s.slice(1)] *)
Definition slice_1 (s : string) : string :=
  match s with
  | EmptyString => EmptyString
  | String _ rest => rest
  end.

(** [pageType ? pageType.slice(1) : pathRoute || path] *)
Definition normalizePageType (pageType pathRoute path : string) : string :=
  if truthy pageType then slice_1 pageType
  else if truthy pathRoute then pathRoute else path.

(** [canUseDOM && pathRoute && pageType], with the defaults [''] in. *)
Definition reports (canUseDOM : bool) (p : props) : bool :=
  canUseDOM && truthy (default ""%string (pathRoute p))
            && truthy (default ""%string (pageType p)).

(** The body of the effect. *)
Definition effect (canUseDOM : bool) (p : props) (s : state) : state :=
  if reports canUseDOM p then
    let name := normalizePageType (default ""%string (pageType p))
                  (default ""%string (pathRoute p)) (default ""%string (path p)) in
    let h := next_timer s in
    {| __PAGE_TYPE__ := Some name;
       dataLayer := (λ pushed, pushed ++ [default ""%string (pageType p)])
                      <$> dataLayer s;
       newrelic := (λ made, made ++ [setPageViewName name (hostname s);
                                     setCurrentRouteName name;
                                     setCustomAttribute "pageType" name])
                     <$> newrelic s;
       hostname := hostname s;
       timers := <[h := (300, name)]>
                   match timeout s with
                   | Some old => delete old (timers s)
                   | None => timers s
                   end;
       next_timer := Pos.succ h;
       timeout := Some h;
       page_views := page_views s |}
  else s.

(** The pending timeout [h] elapses: [setPageView(normalizePageType)]. *)
Definition timer_elapses (h : positive) (s : state) : state :=
  match timers s !! h with
  | Some (_, name) =>
      {| __PAGE_TYPE__ := __PAGE_TYPE__ s; dataLayer := dataLayer s;
         newrelic := newrelic s; hostname := hostname s;
         timers := delete h (timers s); next_timer := next_timer s;
         timeout := timeout s;
         page_views := page_views s ++ [name] |}
  | None => s
  end.

Inductive op : Type :=
| Effect (p : props)      (* the effect of some component runs *)
| Timer (h : positive).   (* a timeout elapses *)

Definition do_op (canUseDOM : bool) (o : op) (s : state) : state :=
  match o with
  | Effect p => effect canUseDOM p s
  | Timer h => timer_elapses h s
  end.

Definition run (canUseDOM : bool) (ops : list op) (s : state) : state :=
  foldl (λ s o, do_op canUseDOM o s) s ops.

(** The page when the module is loaded: whatever globals it has, no timer
    of the hook. *)
Definition loaded (host : string) (layer : option (list string))
    (relic : option (list newrelic_call)) : state :=
  {| __PAGE_TYPE__ := None; dataLayer := layer; newrelic := relic;
     hostname := host; timers := ∅; next_timer := 1%positive;
     timeout := None; page_views := [] |}.

(** A pending timeout is the one [timeout] holds. *)
Definition tracked (s : state) : Prop :=
  match timeout s with
  | Some h => delete h (timers s) = ∅
  | None => timers s = ∅
  end.

(** [name] is the page type of an effect of the script that reported,
    without its first character. *)
Definition reported_by (canUseDOM : bool) (ops : list op) (name : string) : Prop :=
  ∃ p, Effect p ∈ ops ∧ reports canUseDOM p = true ∧
       name = slice_1 (default ""%string (pageType p)).

End Page.

(** * useScrollRestoration

    [useScrollRestoration] (hooks/src/useScrollRestoration.ts) scrolls the
    window, or the element its ref is attached to, to the position the
    scroll context has stored: in the next animation frame it sets a
    timeout of 0 ms, and the timeout scrolls.  The state holds the three
    refs of the hook, the frames and timeouts the browser has pending, and
    the scrolls made. *)

Module Scroll.

Inductive Action : Type := PUSH | POP | REPLACE.

Record LocationInterface : Type := {
  pathname : option string;
  search : option string;
  hash : option string;
  key : option string
}.

(** The part of the scroll context the hook reads. *)
Record ContextInterface : Type := {
  read : LocationInterface → string → Z
}.

(** One request to scroll: [(element || window).scrollTo(0, position)], the
    element given by its node. *)
Definition request : Type := Z * option nat.

Record state : Type := {
  elementRef : option nat;          (* null, or the node attached *)
  timeoutId : option positive;      (* 0, or the last timeout set *)
  rafId : option positive;          (* 0, or the last frame requested *)
  frames : gmap positive request;   (* pending requestAnimationFrame *)
  timeouts : gmap positive request; (* pending setTimeout(.., 0) *)
  next_frame : positive;
  next_timeout : positive;
  scrolled : list request;          (* scrollTo(0, position) calls made *)
  listening : bool                  (* history.listen not yet undone *)
}.

Definition cancelRaf (s : state) : state :=
  match rafId s with
  | Some h =>
      {| elementRef := elementRef s; timeoutId := timeoutId s; rafId := None;
         frames := delete h (frames s); timeouts := timeouts s;
         next_frame := next_frame s; next_timeout := next_timeout s;
         scrolled := scrolled s; listening := listening s |}
  | None => s
  end.

Definition cancelTimeout (s : state) : state :=
  match timeoutId s with
  | Some h =>
      {| elementRef := elementRef s; timeoutId := None; rafId := rafId s;
         frames := frames s; timeouts := delete h (timeouts s);
         next_frame := next_frame s; next_timeout := next_timeout s;
         scrolled := scrolled s; listening := listening s |}
  | None => s
  end.

(** [scrollTo(position, element = null)] *)
Definition scrollTo (position : Z) (element : option nat) (s : state) : state :=
  let h := next_frame s in
  {| elementRef := elementRef s; timeoutId := timeoutId s; rafId := Some h;
     frames := <[h := (position, element)]> (frames s); timeouts := timeouts s;
     next_frame := Pos.succ h; next_timeout := next_timeout s;
     scrolled := scrolled s; listening := listening s |}.

(** The pending frame [h] comes: its function sets the timeout. *)
Definition frame_runs (h : positive) (s : state) : state :=
  match frames s !! h with
  | Some r =>
      let t := next_timeout s in
      {| elementRef := elementRef s; timeoutId := Some t; rafId := rafId s;
         frames := delete h (frames s); timeouts := <[t := r]> (timeouts s);
         next_frame := next_frame s; next_timeout := Pos.succ t;
         scrolled := scrolled s; listening := listening s |}
  | None => s
  end.

(** The pending timeout [h] elapses: its function scrolls and calls
    [cancelTimeout]. *)
Definition timeout_elapses (h : positive) (s : state) : state :=
  match timeouts s !! h with
  | Some r =>
      cancelTimeout
        {| elementRef := elementRef s; timeoutId := timeoutId s; rafId := rafId s;
           frames := frames s; timeouts := delete h (timeouts s);
           next_frame := next_frame s; next_timeout := next_timeout s;
           scrolled := scrolled s ++ [r]; listening := listening s |}
  | None => s
  end.

Definition handleHistoryChange (canUseDom : bool) (scroll : option ContextInterface)
    (loc : LocationInterface) (action : Action) (s : state) : state :=
  match scroll, elementRef s, action with
  | Some context, None, POP =>
      if canUseDom then
        let position := read context loc (default ""%string (key loc)) in
        if position =? 0 then s else scrollTo position None s
      else s
  | _, _, _ => s
  end.

(** The layout effect: restore the element the ref is attached to. *)
Definition restore_element (canUseDom : bool) (scroll : option ContextInterface)
    (location : LocationInterface) (identifier : string) (s : state) : state :=
  match scroll, elementRef s with
  | Some context, Some node =>
      if canUseDom then
        let elPosition := read context location identifier in
        if elPosition =? 0 then s else scrollTo elPosition (Some node) s
      else s
  | _, _ => s
  end.

(** The cleanup of the effect: [unlisten(); cancelRaf(); cancelTimeout()]. *)
Definition cleanup (s : state) : state :=
  let s1 :=
    {| elementRef := elementRef s; timeoutId := timeoutId s; rafId := rafId s;
       frames := frames s; timeouts := timeouts s;
       next_frame := next_frame s; next_timeout := next_timeout s;
       scrolled := scrolled s; listening := false |} in
  cancelTimeout (cancelRaf s1).

(** What the browser does on its own. *)
Inductive event : Type :=
| Frame (h : positive)
| Timeout (h : positive).

Definition happen (e : event) (s : state) : state :=
  match e with
  | Frame h => frame_runs h s
  | Timeout h => timeout_elapses h s
  end.

Definition run (es : list event) (s : state) : state :=
  foldl (λ s e, happen e s) s es.

(** Nothing of the hook is pending. *)
Definition at_rest (s : state) : Prop := frames s = ∅ ∧ timeouts s = ∅.

End Scroll.

(** ** Further samples *)

(** A script without teardown. *)
Definition live_script (ops : list op) : bool :=
  forallb (λ o, match o with Teardown => false | _ => true end) ops.

(** Threshold 3, a consumer that calls back, one payload queued. *)
Definition one_queued_calls_back : world :=
  after (calls_back (Some 3)) [Add 0 (item 1 7)].

(** The route [/home] of page type [/home]. *)
Definition home_page : Page.props :=
  {| Page.pageType := Some "/home"%string; Page.path := Some "/"%string;
     Page.pathRoute := Some "/home"%string; Page.sendGlobalPageType := None |}.

(** The route [/cart], no page type declared. *)
Definition cart_page : Page.props :=
  {| Page.pageType := None; Page.path := Some "/cart"%string;
     Page.pathRoute := Some "/cart"%string; Page.sendGlobalPageType := None |}.

(** The hook just mounted, no element attached. *)
Definition scroll_mounted : Scroll.state :=
  {| Scroll.elementRef := None; Scroll.timeoutId := None; Scroll.rafId := None;
     Scroll.frames := ∅; Scroll.timeouts := ∅;
     Scroll.next_frame := 1%positive; Scroll.next_timeout := 1%positive;
     Scroll.scrolled := []; Scroll.listening := true |}.

(** A scroll context that has 120 stored under the key ['k'] and 0
    elsewhere. *)
Definition stored_120 : Scroll.ContextInterface :=
  {| Scroll.read := λ _ id, if bool_decide (id = "k"%string) then 120 else 0 |}.

Definition at_key_k : Scroll.LocationInterface :=
  {| Scroll.pathname := Some "/list"%string; Scroll.search := None;
     Scroll.hash := None; Scroll.key := Some "k"%string |}.

(** The props of [useIdleCallback] all left out. *)
Definition idle_default : Idle.IdleCallbackInterface :=
  {| Idle.fallbackInterval := None; Idle.shouldSkip := None; Idle.options := None |}.

(** * Properties *)

(** ** Sets and values *)

Lemma set_add_NoDup item q : NoDup q → NoDup (set_add item q).
Proof.
  intros Hq. unfold set_add. case_bool_decide as Hin; [done|].
  apply NoDup_app. split_and!; [done| |apply NoDup_singleton].
  intros x Hx ->%list_elem_of_singleton. done.
Qed.

Lemma set_add_elem item q : item ∈ set_add item q.
Proof.
  unfold set_add. case_bool_decide; [done|].
  apply elem_of_app. right. by apply list_elem_of_singleton.
Qed.

Lemma set_add_keeps item x q : x ∈ q → x ∈ set_add item q.
Proof.
  intros Hx. unfold set_add. case_bool_decide; [done|].
  apply elem_of_app. by left.
Qed.

Lemma set_add_nonempty item q : length (set_add item q) ≠ 0%nat.
Proof.
  pose proof (set_add_elem item q) as Hin.
  destruct (set_add item q); [by apply elem_of_nil in Hin|done].
Qed.

Lemma set_add_present item q : item ∈ q → set_add item q = q.
Proof. intros Hin. unfold set_add. by rewrite bool_decide_eq_true_2. Qed.

Lemma set_add_fresh item q : item ∉ q → set_add item q = q ++ [item].
Proof. intros Hin. unfold set_add. by rewrite bool_decide_eq_false_2. Qed.

Lemma occurrences_absent v l : v ∉ l → occurrences v l = 0%nat.
Proof.
  intros Hv. unfold occurrences.
  induction l as [|x l IH]; [done|].
  apply not_elem_of_cons in Hv as [Hne Hv].
  rewrite filter_cons_False by congruence. by apply IH.
Qed.

Lemma occurrences_NoDup v l : NoDup l → v ∈ l → occurrences v l = 1%nat.
Proof.
  induction 1 as [|x l Hx Hl IH]; intros Hin.
  - by apply elem_of_nil in Hin.
  - unfold occurrences. apply elem_of_cons in Hin as [->|Hin].
    + rewrite filter_cons_True by done. simpl. f_equal.
      by apply occurrences_absent.
    + rewrite filter_cons_False; [by apply IH|].
      intros ->. done.
Qed.

(** ** A consumer that does not call back: the hook as plain functions *)

Section quiet_consumer.

Variable options : BatchOptionsInterface.
Hypothesis Hquiet : quiet options.

Lemma notify_quiet add w :
  notify options (run_calls add) w = Some (deliver options w).
Proof using Hquiet.
  unfold notify, deliver.
  destruct (onBatchCallback options) as [cb|] eqn:Hcb; [|done].
  case_bool_decide; [|done].
  by rewrite (Hquiet cb _ Hcb).
Qed.

Lemma consumeQueue_quiet fuel w :
  _consumeQueue options fuel w = Some (flush options w).
Proof using Hquiet. destruct fuel; simpl; by rewrite notify_quiet. Qed.

Lemma addQueue_quiet fuel now data w :
  addQueue options fuel now data w =
  Some (if bool_decide (is_Some (batchRef w !! key_of options now data)) then w
        else
          let w2 := schedule_if_idle options
                      (_enqueueBatch (key_of options now data) (hit options data) w) in
          if bool_decide (THRESHOLD options <= Z.of_nat (length (queueRef w2)))
          then flush options w2 else w2).
Proof using Hquiet.
  unfold addQueue, addQueue_with.
  case_bool_decide; [done|]. simpl.
  case_bool_decide; [|done]. apply consumeQueue_quiet.
Qed.

Lemma cleanupQueue_quiet fuel w :
  _cleanupQueue options fuel w =
  Some (clear_queue (clear_batch (flush options w))).
Proof using Hquiet. unfold _cleanupQueue. by rewrite consumeQueue_quiet. Qed.

Lemma timer_fires_quiet fuel h w :
  is_Some (timers w !! h) →
  timer_fires options fuel h w =
  Some (if bool_decide (length (queueRef w) ≠ 0%nat)
        then flush options (expire h w) else expire h w).
Proof using Hquiet.
  intros [ms Hms]. unfold timer_fires. rewrite Hms. simpl.
  case_bool_decide; [|done]. apply consumeQueue_quiet.
Qed.

End quiet_consumer.

(** ** Invariants of every run, whatever the consumer does *)

Section preservation.

Variable options : BatchOptionsInterface.
Variable P : world → Prop.

Hypothesis P_enqueue : ∀ key item w, P w → P (_enqueueBatch key item w).
Hypothesis P_schedule :
  ∀ w, P w → timeoutRef w = None → P (_scheduleQueueConsumption options w).
Hypothesis P_clear_scheduler : ∀ w, P w → P (clear_scheduler w).
Hypothesis P_batch :
  ∀ w, P w → timeoutRef w = None → length (queueRef w) ≠ 0%nat →
       P (log (EvBatch (queueRef w)) w).
Hypothesis P_clear_queue : ∀ w, P w → P (clear_queue w).
Hypothesis P_clear_batch : ∀ w, P w → P (clear_batch w).
Hypothesis P_expire : ∀ h w, P w → is_Some (timers w !! h) → P (expire h w).

Lemma schedule_if_idle_preserves w : P w → P (schedule_if_idle options w).
Proof using P_schedule.
  intros Hw. unfold schedule_if_idle.
  destruct (timeoutRef w) eqn:Href; [done|]. by apply P_schedule.
Qed.

Lemma addQueue_with_preserves consume :
  (∀ w w', P w → consume w = Some w' → P w') →
  ∀ now data w w',
    P w → addQueue_with options consume now data w = Some w' → P w'.
Proof using P_enqueue P_schedule.
  intros Hconsume now data w w' Hw. unfold addQueue_with.
  case_bool_decide; [by intros [= <-]|]. simpl.
  pose proof (schedule_if_idle_preserves _ (P_enqueue
    (key_of options now data) (hit options data) w Hw)) as Hw2.
  case_bool_decide; [by apply Hconsume|by intros [= <-]].
Qed.

Lemma run_calls_preserves add :
  (∀ now data w w', P w → add now data w = Some w' → P w') →
  ∀ cs w w', P w → run_calls add cs w = Some w' → P w'.
Proof.
  intros Hadd cs. induction cs as [|[now data] cs IH]; intros w w' Hw; simpl.
  - by intros [= <-].
  - destruct (add now data w) as [w1|] eqn:Hw1; [|done].
    apply IH. by eapply Hadd.
Qed.

Lemma clear_scheduler_idle w : timeoutRef (clear_scheduler w) = None.
Proof. unfold clear_scheduler. by destruct (timeoutRef w) eqn:Href. Qed.

Lemma notify_preserves react :
  (∀ cs w w', P w → react cs w = Some w' → P w') →
  ∀ w w', P w → timeoutRef w = None →
          notify options react w = Some w' → P w'.
Proof using P_batch.
  intros Hreact w w' Hw Href. unfold notify.
  destruct (onBatchCallback options) as [cb|]; [|by intros [= <-]].
  case_bool_decide; [|by intros [= <-]].
  apply Hreact. by apply P_batch.
Qed.

Lemma consumeQueue_preserves fuel :
  ∀ w w', P w → _consumeQueue options fuel w = Some w' → P w'.
Proof using P_enqueue P_schedule P_clear_scheduler P_batch P_clear_queue.
  induction fuel as [|fuel IH]; intros w w' Hw; simpl.
  - destruct (notify _ _ _) as [w1|] eqn:Hw1; [|done]. intros [= <-].
    apply P_clear_queue.
    eapply notify_preserves;
      [|by apply P_clear_scheduler|apply clear_scheduler_idle|exact Hw1].
    apply run_calls_preserves, addQueue_with_preserves. done.
  - destruct (notify _ _ _) as [w1|] eqn:Hw1; [|done]. intros [= <-].
    apply P_clear_queue.
    eapply notify_preserves;
      [|by apply P_clear_scheduler|apply clear_scheduler_idle|exact Hw1].
    apply run_calls_preserves, addQueue_with_preserves. exact IH.
Qed.

Lemma reenter_preserves fuel cs w w' :
  P w → reenter options fuel cs w = Some w' → P w'.
Proof using P_enqueue P_schedule P_clear_scheduler P_batch P_clear_queue.
  apply run_calls_preserves, addQueue_with_preserves.
  destruct fuel; [done|]. apply consumeQueue_preserves.
Qed.

Lemma step_preserves w w' : P w → step options w w' → P w'.
Proof using All.
  intros Hw [fuel now data Hadd|fuel h Hh Hfire|fuel Hclean].
  - eapply addQueue_with_preserves; [apply consumeQueue_preserves|done..].
  - destruct Hh as [ms Hms]. unfold timer_fires in Hfire. rewrite Hms in Hfire.
    assert (P (expire h w)) as Hw1 by (apply P_expire; eauto).
    case_bool_decide; [by eapply consumeQueue_preserves|by injection Hfire as <-].
  - unfold _cleanupQueue in Hclean.
    destruct (_consumeQueue options fuel w) as [w1|] eqn:Hw1; [|done].
    injection Hclean as <-.
    apply P_clear_queue, P_clear_batch. by eapply consumeQueue_preserves.
Qed.

Lemma steps_preserve w w' : P w → rtc (step options) w w' → P w'.
Proof using All.
  intros Hw Hsteps. induction Hsteps as [|w w1 w' Hstep _ IH]; [done|].
  apply IH. by eapply step_preserves.
Qed.

End preservation.

(** ** The pending timeout *)

Lemma pending_of_snoc t e : pending_of (t ++ [e]) = timer_step (pending_of t) e.
Proof. unfold pending_of. by rewrite foldl_app. Qed.

Lemma snoc_split (t p q : list event) (e x : event) :
  t ++ [e] = p ++ x :: q →
  (q = [] ∧ p = t ∧ x = e) ∨ (∃ q', q = q' ++ [e] ∧ t = p ++ x :: q').
Proof.
  intros Heq. destruct q as [|y q _] using rev_ind.
  - apply app_inj_tail in Heq as [-> ->]. by left.
  - right. exists q.
    change (p ++ x :: q ++ [y]) with (p ++ (x :: q) ++ [y]) in Heq.
    rewrite app_assoc in Heq. by apply app_inj_tail in Heq as [-> ->].
Qed.

Lemma one_at_a_time_snoc t e :
  one_at_a_time t →
  (∀ h ms, e = EvSetTimeout h ms → pending_of t = ∅) →
  one_at_a_time (t ++ [e]).
Proof.
  intros Ht He p h ms q Heq.
  apply snoc_split in Heq as [(_ & -> & Hx)|(q' & _ & ->)].
  - by eapply He.
  - by eapply Ht.
Qed.

Lemma callback_after_cancel_snoc t e :
  callback_after_cancel t →
  (∀ items, e = EvBatch items → pending_of t = ∅) →
  callback_after_cancel (t ++ [e]).
Proof.
  intros Ht He p items q Heq.
  apply snoc_split in Heq as [(_ & -> & Hx)|(q' & _ & ->)].
  - by eapply He.
  - by eapply Ht.
Qed.

Lemma timer_inv_idle w : timer_inv w → timeoutRef w = None → timers w = ∅.
Proof.
  intros Hinv Href. apply map_empty. intros h.
  destruct (timers w !! h) as [ms|] eqn:Hh; [|done].
  specialize (Hinv h (mk_is_Some _ _ Hh)). congruence.
Qed.

Lemma timer_inv_size w : timer_inv w → (size (timers w) ≤ 1)%nat.
Proof.
  intros Hinv. destruct (timeoutRef w) as [h|] eqn:Href.
  - assert (delete h (timers w) = ∅) as Hrest.
    { apply map_empty. intros h'. apply lookup_delete_None.
      destruct (decide (h = h')) as [|Hne]; [by left|right].
      destruct (timers w !! h') as [ms|] eqn:Hh'; [|done].
      specialize (Hinv h' (mk_is_Some _ _ Hh')). congruence. }
    pose proof (map_size_delete h (timers w)) as Hsize.
    rewrite Hrest, map_size_empty in Hsize.
    destruct (timers w !! h); simpl in Hsize; lia.
  - rewrite (timer_inv_idle w Hinv Href), map_size_empty. lia.
Qed.

Lemma timers_tracked_init : timers_tracked init.
Proof.
  split_and!.
  - intros h [ms Hms]. simpl in Hms. by apply lookup_empty_Some in Hms.
  - simpl. by rewrite dom_empty_L.
  - intros [|??] ???; discriminate.
  - intros [|??] ???; discriminate.
Qed.

Lemma timers_tracked_enqueue key item w :
  timers_tracked w → timers_tracked (_enqueueBatch key item w).
Proof.
  intros (Hinv & Hdom & Hone & Hcb). split_and!; [unfold timer_inv|..]; simpl.
  - exact Hinv.
  - by rewrite pending_of_snoc.
  - by apply one_at_a_time_snoc.
  - by apply callback_after_cancel_snoc.
Qed.

Lemma timers_tracked_schedule options w :
  timers_tracked w → timeoutRef w = None →
  timers_tracked (_scheduleQueueConsumption options w).
Proof.
  intros (Hinv & Hdom & Hone & Hcb) Href.
  pose proof (timer_inv_idle w Hinv Href) as Hnone.
  split_and!; [unfold timer_inv|..]; simpl.
  - intros h [ms Hms]. rewrite Hnone in Hms.
    apply lookup_insert_Some in Hms as [[-> _]|[_ Hms]]; done.
  - by rewrite pending_of_snoc, dom_insert_L, <-Hdom.
  - apply one_at_a_time_snoc; [done|]. intros _ _ _.
    by rewrite Hdom, Hnone, dom_empty_L.
  - by apply callback_after_cancel_snoc.
Qed.

Lemma timers_tracked_clear_scheduler w :
  timers_tracked w → timers_tracked (clear_scheduler w).
Proof.
  intros (Hinv & Hdom & Hone & Hcb). unfold clear_scheduler.
  destruct (timeoutRef w) as [h|] eqn:Href; [|done].
  split_and!; [unfold timer_inv|..]; simpl.
  - intros h' [Hne Hh']%lookup_delete_is_Some.
    specialize (Hinv h' Hh'). congruence.
  - by rewrite pending_of_snoc, dom_delete_L, <-Hdom.
  - by apply one_at_a_time_snoc.
  - by apply callback_after_cancel_snoc.
Qed.

Lemma timers_tracked_batch w :
  timers_tracked w → timeoutRef w = None →
  timers_tracked (log (EvBatch (queueRef w)) w).
Proof.
  intros (Hinv & Hdom & Hone & Hcb) Href. split_and!; [unfold timer_inv|..]; simpl.
  - exact Hinv.
  - by rewrite pending_of_snoc.
  - by apply one_at_a_time_snoc.
  - apply callback_after_cancel_snoc; [done|]. intros _ _.
    by rewrite Hdom, (timer_inv_idle w Hinv Href), dom_empty_L.
Qed.

Lemma timers_tracked_expire h w :
  timers_tracked w → is_Some (timers w !! h) → timers_tracked (expire h w).
Proof.
  intros (Hinv & Hdom & Hone & Hcb) Hh. split_and!; [unfold timer_inv|..]; simpl.
  - intros h' [Hne Hh']%lookup_delete_is_Some.
    pose proof (Hinv h' Hh'). pose proof (Hinv h Hh). congruence.
  - by rewrite pending_of_snoc, dom_delete_L, <-Hdom.
  - by apply one_at_a_time_snoc.
  - by apply callback_after_cancel_snoc.
Qed.

Lemma timers_tracked_step options w w' :
  timers_tracked w → step options w w' → timers_tracked w'.
Proof.
  apply (step_preserves options timers_tracked).
  - apply timers_tracked_enqueue.
  - apply timers_tracked_schedule.
  - apply timers_tracked_clear_scheduler.
  - intros w0 Hw0 Href _. by apply timers_tracked_batch.
  - done.
  - done.
  - intros h w0. apply timers_tracked_expire.
Qed.

Lemma timers_tracked_reachable options w :
  reachable options w → timers_tracked w.
Proof.
  intros Hw. eapply (steps_preserve options timers_tracked); [..|exact Hw].
  - apply timers_tracked_enqueue.
  - apply timers_tracked_schedule.
  - apply timers_tracked_clear_scheduler.
  - intros w0 Hw0 Href _. by apply timers_tracked_batch.
  - done.
  - done.
  - intros h w0. apply timers_tracked_expire.
  - apply timers_tracked_init.
Qed.

(** ** The queue is a set *)

Lemma queue_NoDup_reachable options w : reachable options w → NoDup (queueRef w).
Proof.
  intros Hw.
  eapply (steps_preserve options (λ w, NoDup (queueRef w))); [..|exact Hw];
    simpl; try done.
  - intros key item w0. apply set_add_NoDup.
  - intros w0 Hw0. unfold clear_scheduler. by destruct (timeoutRef w0).
  - intros. apply NoDup_nil_2.
  - apply NoDup_nil_2.
Qed.

(** ** What a flush leaves behind *)

Ltac unfold_flush :=
  unfold flush, deliver, clear_scheduler, clear_queue, log;
  repeat (case_match; simpl); try done.

Lemma flush_queueRef options w : queueRef (flush options w) = [].
Proof. done. Qed.

Lemma flush_batchRef options w : batchRef (flush options w) = batchRef w.
Proof. unfold_flush. Qed.

Lemma flush_timeoutRef options w : timeoutRef (flush options w) = None.
Proof. unfold_flush. Qed.

Lemma flush_next_timer options w : next_timer (flush options w) = next_timer w.
Proof. unfold_flush. Qed.

Lemma flush_timers options w :
  timers (flush options w) =
  match timeoutRef w with Some h => delete h (timers w) | None => timers w end.
Proof. unfold_flush. Qed.

Lemma clear_scheduler_queueRef w : queueRef (clear_scheduler w) = queueRef w.
Proof. unfold clear_scheduler. by destruct (timeoutRef w). Qed.

Lemma clear_scheduler_batchRef w : batchRef (clear_scheduler w) = batchRef w.
Proof. unfold clear_scheduler. by destruct (timeoutRef w). Qed.

Lemma clear_scheduler_trace w :
  trace (clear_scheduler w) =
  trace w ++ match timeoutRef w with Some h => [EvClearTimeout h] | None => [] end.
Proof.
  unfold clear_scheduler. destruct (timeoutRef w); [done|].
  by rewrite app_nil_r.
Qed.

Lemma flush_trace options w :
  trace (flush options w) =
  trace (clear_scheduler w) ++
  match onBatchCallback options with
  | Some _ => if bool_decide (length (queueRef w) ≠ 0%nat)
              then [EvBatch (queueRef w)] else []
  | None => []
  end.
Proof.
  unfold flush, deliver. rewrite clear_scheduler_queueRef.
  destruct (onBatchCallback options); [|by rewrite app_nil_r].
  case_bool_decide; [done|by rewrite app_nil_r].
Qed.

Lemma batches_app t1 t2 : batches (t1 ++ t2) = batches t1 ++ batches t2.
Proof. apply omap_app. Qed.

Lemma enqueued_app t1 t2 : enqueued (t1 ++ t2) = enqueued t1 ++ enqueued t2.
Proof. apply omap_app. Qed.

Lemma flush_batches options w :
  batches (trace (flush options w)) =
  batches (trace w) ++
  match onBatchCallback options with
  | Some _ => if bool_decide (length (queueRef w) ≠ 0%nat)
              then [queueRef w] else []
  | None => []
  end.
Proof.
  rewrite flush_trace, clear_scheduler_trace, !batches_app, <-app_assoc.
  f_equal. destruct (timeoutRef w), (onBatchCallback options); simpl;
    try case_bool_decide; done.
Qed.

Lemma flush_enqueued options w :
  enqueued (trace (flush options w)) = enqueued (trace w).
Proof.
  rewrite flush_trace, clear_scheduler_trace, !enqueued_app.
  destruct (timeoutRef w), (onBatchCallback options); simpl;
    try case_bool_decide; simpl; by rewrite ?app_nil_r.
Qed.

Lemma schedule_if_idle_queueRef options w :
  queueRef (schedule_if_idle options w) = queueRef w.
Proof. unfold schedule_if_idle. by destruct (timeoutRef w). Qed.

Lemma schedule_if_idle_batchRef options w :
  batchRef (schedule_if_idle options w) = batchRef w.
Proof. unfold schedule_if_idle. by destruct (timeoutRef w). Qed.

Lemma schedule_if_idle_batches options w :
  batches (trace (schedule_if_idle options w)) = batches (trace w).
Proof.
  unfold schedule_if_idle. destruct (timeoutRef w); [done|]. simpl.
  by rewrite batches_app, app_nil_r.
Qed.

Lemma schedule_if_idle_enqueued options w :
  enqueued (trace (schedule_if_idle options w)) = enqueued (trace w).
Proof.
  unfold schedule_if_idle. destruct (timeoutRef w); [done|]. simpl.
  by rewrite enqueued_app, app_nil_r.
Qed.

Lemma schedule_if_idle_armed options w :
  ∃ h, timeoutRef (schedule_if_idle options w) = Some h.
Proof. unfold schedule_if_idle. destruct (timeoutRef w) eqn:Href; eauto. Qed.

(** ** Between two calls, with a consumer that does not call back *)

Lemma settled_flush options w : settled options (flush options w).
Proof.
  split.
  - by rewrite flush_timeoutRef, flush_queueRef.
  - intros h. by rewrite flush_timeoutRef.
Qed.

Lemma settled_enqueue options key item w :
  settled options w →
  settled options (schedule_if_idle options (_enqueueBatch key item w)).
Proof.
  intros [Hiff Hheld].
  pose proof (set_add_nonempty item (queueRef w)) as Hne.
  unfold schedule_if_idle, settled. simpl.
  destruct (timeoutRef w) as [h|] eqn:Href; simpl; rewrite ?Href.
  - split; [|done]. split; [done|]. intros Hq. by rewrite Hq in Hne.
  - split.
    + split; [done|]. intros Hq. by rewrite Hq in Hne.
    + intros h [= <-]. apply lookup_insert_eq.
Qed.

Lemma settled_step options w w' :
  quiet options → timer_inv w → settled options w → step options w w' →
  settled options w'.
Proof.
  intros Hquiet Hinv Hw [fuel now data Hadd|fuel h Hh Hfire|fuel Hclean].
  - rewrite addQueue_quiet in Hadd by done. injection Hadd as <-.
    case_bool_decide; [done|]. simpl.
    case_bool_decide; [apply settled_flush|by apply settled_enqueue].
  - rewrite timer_fires_quiet in Hfire by done. injection Hfire as <-.
    case_bool_decide as Hq; [apply settled_flush|].
    destruct Hw as [Hiff _]. specialize (Hinv h Hh).
    apply nil_length_inv, Hiff in Hq. congruence.
  - rewrite cleanupQueue_quiet in Hclean by done. injection Hclean as <-.
    split.
    + change (timeoutRef (flush options w) = None ↔ @nil value = []).
      by rewrite flush_timeoutRef.
    + intros h. change (timeoutRef (flush options w) = Some h → timers (flush options w) !! h = Some (TIMEOUT options)).
      by rewrite flush_timeoutRef.
Qed.

Lemma settled_reachable options w :
  quiet options → reachable options w → settled options w.
Proof.
  intros Hquiet. revert w. apply rtc_ind_r.
  - split; [done|]. intros h. discriminate.
  - intros w1 w2 Hsteps Hstep IH. eapply settled_step; [done| |done..].
    by apply (timers_tracked_reachable options).
Qed.

(** ** Accepting and dropping *)

Lemma addQueue_duplicate options fuel now data w :
  is_Some (batchRef w !! key_of options now data) →
  addQueue options fuel now data w = Some w.
Proof.
  intros Hdup. unfold addQueue, addQueue_with.
  by rewrite bool_decide_eq_true_2.
Qed.

Lemma addQueue_accepts options fuel now data w :
  quiet options →
  batchRef w !! key_of options now data = None →
  ∃ w', addQueue options fuel now data w = Some w' ∧
        batchRef w' = <[key_of options now data := hit options data]> (batchRef w) ∧
        enqueued (trace w') = enqueued (trace w) ++ [hit options data].
Proof.
  intros Hquiet Hnew. rewrite addQueue_quiet by done.
  rewrite bool_decide_eq_false_2 by (rewrite Hnew; by intros [? ?]).
  eexists. split; [done|]. simpl. case_bool_decide.
  - rewrite flush_batchRef, flush_enqueued, schedule_if_idle_batchRef,
      schedule_if_idle_enqueued. simpl. by rewrite enqueued_app.
  - rewrite schedule_if_idle_batchRef, schedule_if_idle_enqueued. simpl.
    by rewrite enqueued_app.
Qed.

Lemma key_of_lacking options now data :
  lacks_field options data → key_of options now data = VNum now.
Proof. intros Hlack. unfold key_of, js_or. by rewrite Hlack. Qed.

(** C5. The dedup key of a payload is [payload[dedupField]] when that field
    is present and truthy, and the clock reading otherwise.  Payloads
    without the field are therefore told apart by the clock alone: two of
    them (even the same object twice) submitted at distinct clock readings
    are both accepted, two submitted at the same reading collide and the
    second is dropped. *)
Theorem dedup_key_is_field_or_timestamp options now data :
  let field := props data !! to_property_key (BATCH_KEY options) in
  (∀ v, field = Some v → truthy v = true → key_of options now data = v) ∧
  (field = None ∨ (∃ v, field = Some v ∧ truthy v = false) →
   key_of options now data = VNum now) ∧
  (∀ fuel now' data' w,
     quiet options →
     lacks_field options data → lacks_field options data' →
     batchRef w !! VNum now = None → batchRef w !! VNum now' = None →
     ∃ w1, addQueue options fuel now data w = Some w1 ∧
       if bool_decide (now' = now)
       then addQueue options fuel now' data' w1 = Some w1
       else ∃ w2, addQueue options fuel now' data' w1 = Some w2 ∧
              enqueued (trace w2) =
              enqueued (trace w) ++ [hit options data; hit options data']).
Proof.
  simpl. split_and!.
  - intros v Hv Htrue. unfold key_of, js_or, get_prop. by rewrite Hv; simpl; rewrite Htrue.
  - intros [Hnone|(v & Hv & Hfalse)]; unfold key_of, js_or, get_prop.
    + by rewrite Hnone.
    + by rewrite Hv; simpl; rewrite Hfalse.
  - intros fuel now' data' w Hquiet Hlack Hlack' Hnow Hnow'.
    pose proof (key_of_lacking options now data Hlack) as Hkey.
    pose proof (key_of_lacking options now' data' Hlack') as Hkey'.
    destruct (addQueue_accepts options fuel now data w Hquiet) as (w1 & Hw1 & Hb1 & He1);
      [by rewrite Hkey|].
    exists w1. split; [done|]. case_bool_decide as Hsame.
    + subst now'. apply addQueue_duplicate.
      rewrite Hb1, Hkey', Hkey, lookup_insert_eq. eauto.
    + destruct (addQueue_accepts options fuel now' data' w1 Hquiet) as (w2 & Hw2 & Hb2 & He2).
      { rewrite Hb1, Hkey', Hkey, lookup_insert_ne by congruence. done. }
      exists w2. split; [done|]. by rewrite He2, He1, <-app_assoc.
Qed.

(** ** The options the hook reads *)

Lemma run_calls_ext add1 add2 :
  (∀ now data w, add1 now data w = add2 now data w) →
  ∀ cs w, run_calls add1 cs w = run_calls add2 cs w.
Proof.
  intros Hadd cs. induction cs as [|[now data] cs IH]; intros w; simpl; [done|].
  rewrite Hadd. destruct (add2 now data w); [apply IH|done].
Qed.

Section same_constants.

Variables o1 o2 : BatchOptionsInterface.
Hypothesis Htimeout : TIMEOUT o1 = TIMEOUT o2.
Hypothesis Hthreshold : THRESHOLD o1 = THRESHOLD o2.
Hypothesis Hkey : BATCH_KEY o1 = BATCH_KEY o2.
Hypothesis Hhit : onHitCallback o1 = onHitCallback o2.
Hypothesis Hbatch : onBatchCallback o1 = onBatchCallback o2.

Lemma addQueue_with_ext consume1 consume2 :
  (∀ w, consume1 w = consume2 w) →
  ∀ now data w,
    addQueue_with o1 consume1 now data w = addQueue_with o2 consume2 now data w.
Proof using Htimeout Hthreshold Hkey Hhit.
  intros Hconsume now data w. unfold addQueue_with.
  assert (key_of o1 now data = key_of o2 now data) as ->
    by (unfold key_of; by rewrite Hkey).
  assert (hit o1 data = hit o2 data) as -> by (unfold hit; by rewrite Hhit).
  assert (∀ w0, schedule_if_idle o1 w0 = schedule_if_idle o2 w0) as Hsched.
  { intros w0. unfold schedule_if_idle, _scheduleQueueConsumption.
    by rewrite Htimeout. }
  rewrite Hsched, Hthreshold.
  case_bool_decide; [done|]. simpl. case_bool_decide; [apply Hconsume|done].
Qed.

Lemma notify_ext react1 react2 :
  (∀ cs w, react1 cs w = react2 cs w) →
  ∀ w, notify o1 react1 w = notify o2 react2 w.
Proof using Hbatch.
  intros Hreact w. unfold notify. rewrite Hbatch.
  destruct (onBatchCallback o2); [|done]. case_bool_decide; [apply Hreact|done].
Qed.

Lemma consumeQueue_ext fuel w : _consumeQueue o1 fuel w = _consumeQueue o2 fuel w.
Proof using All.
  revert w. induction fuel as [|fuel IH]; intros w; simpl.
  - erewrite notify_ext; [done|].
    apply run_calls_ext, addQueue_with_ext. done.
  - erewrite notify_ext; [done|].
    apply run_calls_ext, addQueue_with_ext. exact IH.
Qed.

Lemma same_constants_same_behaviour : same_behaviour o1 o2.
Proof using All.
  intros fuel w. split_and!.
  - intros now data. apply addQueue_with_ext, consumeQueue_ext.
  - intros h. unfold timer_fires. destruct (timers w !! h); [|done].
    case_bool_decide; [apply consumeQueue_ext|done].
  - unfold _cleanupQueue. by rewrite consumeQueue_ext.
Qed.

End same_constants.

(** C9. Defaults replace every falsy option, not only an absent one:
    [timeout = 0] behaves as [timeout = 10] and as no timeout,
    [threshold = 0] as [threshold = 1] and as no threshold (so every
    accepted payload is flushed at once), and a [batchKey] of [''] or [0] as
    no [batchKey]: the key is then read from the property [''] of the
    payload, and is the clock reading for a payload without a truthy such
    property. *)
Theorem falsy_options_take_defaults o :
  same_behaviour (set_timeout (Some 0) o) (set_timeout (Some 10) o) ∧
  same_behaviour (set_timeout (Some 0) o) (set_timeout None o) ∧
  same_behaviour (set_threshold (Some 0) o) (set_threshold (Some 1) o) ∧
  same_behaviour (set_threshold (Some 0) o) (set_threshold None o) ∧
  same_behaviour (set_batchKey (Some (PStr "")) o) (set_batchKey None o) ∧
  same_behaviour (set_batchKey (Some (PNum 0)) o) (set_batchKey None o) ∧
  (∀ fuel now data w,
     quiet o →
     batchRef w !! key_of o now data = None →
     ∃ w', addQueue (set_threshold (Some 0) o) fuel now data w = Some w' ∧
           getQueue w' = [] ∧
           (is_Some (onBatchCallback o) →
            batches (trace w') =
            batches (trace w) ++ [set_add (hit o data) (queueRef w)])) ∧
  (∀ k now data,
     k = Some (PStr "") ∨ k = Some (PNum 0) ∨ k = None →
     key_of (set_batchKey k o) now data =
     js_or (default VUndefined (props data !! ""%string)) (VNum now) ∧
     ((∀ v, props data !! ""%string = Some v → truthy v = false) →
      key_of (set_batchKey k o) now data = VNum now)).
Proof.
  split_and!; try (by apply same_constants_same_behaviour).
  - intros fuel now data w Hquiet Hnew.
    rewrite (addQueue_quiet (set_threshold (Some 0) o)) by done.
    change (key_of (set_threshold (Some 0) o)) with (key_of o).
    change (hit (set_threshold (Some 0) o)) with (hit o).
    rewrite bool_decide_eq_false_2 by (rewrite Hnew; by intros [? ?]).
    eexists. split; [done|]. simpl.
    pose proof (set_add_nonempty (hit o data) (queueRef w)) as Hne.
    rewrite bool_decide_eq_true_2.
    2:{ rewrite schedule_if_idle_queueRef. simpl.
        change (THRESHOLD (set_threshold (Some 0) o)) with 1. lia. }
    split; [done|]. intros [cb Hcb].
    rewrite flush_batches, schedule_if_idle_queueRef, schedule_if_idle_batches.
    simpl. rewrite Hcb, bool_decide_eq_true_2 by done.
    by rewrite batches_app, app_nil_r.
  - intros k now data Hk.
    assert (BATCH_KEY (set_batchKey k o) = PStr "") as Hname
      by (by destruct Hk as [->|[->| ->]]).
    assert (key_of (set_batchKey k o) now data =
            js_or (default VUndefined (props data !! ""%string)) (VNum now)) as Heq
      by (unfold key_of, get_prop; by rewrite Hname).
    split; [done|]. intros Hfalsy. rewrite Heq. unfold js_or.
    destruct (props data !! ""%string) as [v|] eqn:Hv; simpl; [|done].
    by rewrite (Hfalsy v).
Qed.

(** ** The trace only grows *)

Lemma extends_snoc t e w w' :
  trace w' = trace w ++ [e] → extends t w → extends t w'.
Proof.
  intros Htrace [rest Hrest]. exists (rest ++ [e]).
  by rewrite Htrace, Hrest, app_assoc.
Qed.

Lemma extends_invariant options t :
  (∀ key item w, extends t w → extends t (_enqueueBatch key item w)) ∧
  (∀ w, extends t w → timeoutRef w = None →
        extends t (_scheduleQueueConsumption options w)) ∧
  (∀ w, extends t w → extends t (clear_scheduler w)) ∧
  (∀ w, extends t w → timeoutRef w = None → length (queueRef w) ≠ 0%nat →
        extends t (log (EvBatch (queueRef w)) w)) ∧
  (∀ w, extends t w → extends t (clear_queue w)).
Proof.
  split_and!.
  - intros key item w Hw. by eapply extends_snoc.
  - intros w Hw _. by eapply extends_snoc.
  - intros w Hw. unfold clear_scheduler.
    destruct (timeoutRef w); [|done]. by eapply extends_snoc.
  - intros w Hw _ _. by eapply extends_snoc.
  - done.
Qed.

Lemma extends_consumeQueue options t fuel w w' :
  extends t w → _consumeQueue options fuel w = Some w' → extends t w'.
Proof.
  destruct (extends_invariant options t) as (H1 & H2 & H3 & H4 & H5).
  by apply (consumeQueue_preserves options (extends t)).
Qed.

Lemma extends_reenter options t fuel cs w w' :
  extends t w → reenter options fuel cs w = Some w' → extends t w'.
Proof.
  destruct (extends_invariant options t) as (H1 & H2 & H3 & H4 & H5).
  by apply (reenter_preserves options (extends t)).
Qed.

(** [_consumeQueue], with the consumer's own calls made explicit. *)
Lemma consumeQueue_unfold options fuel w :
  _consumeQueue options fuel w =
  clear_queue <$> notify options (reenter options fuel) (clear_scheduler w).
Proof. destruct fuel; simpl; by destruct (notify _ _ _). Qed.

(** More fuel changes no result. *)

Section fuel.

Variable options : BatchOptionsInterface.

Lemma addQueue_with_mono (consume1 consume2 : world → option world) :
  (∀ w w', consume1 w = Some w' → consume2 w = Some w') →
  ∀ now data w w',
    addQueue_with options consume1 now data w = Some w' →
    addQueue_with options consume2 now data w = Some w'.
Proof.
  intros Hle now data w w'. unfold addQueue_with.
  case_bool_decide; [done|]. simpl. case_bool_decide; [apply Hle|done].
Qed.

Lemma run_calls_mono (add1 add2 : Z → payload → world → option world) :
  (∀ now data w w', add1 now data w = Some w' → add2 now data w = Some w') →
  ∀ cs w w', run_calls add1 cs w = Some w' → run_calls add2 cs w = Some w'.
Proof.
  intros Hle cs. induction cs as [|[now data] cs IH]; intros w w'; simpl; [done|].
  destruct (add1 now data w) as [w1|] eqn:Hw1; [|done].
  rewrite (Hle _ _ _ _ Hw1). apply IH.
Qed.

Lemma notify_mono (react1 react2 : list call → world → option world) :
  (∀ cs w w', react1 cs w = Some w' → react2 cs w = Some w') →
  ∀ w w', notify options react1 w = Some w' → notify options react2 w = Some w'.
Proof.
  intros Hle w w'. unfold notify.
  destruct (onBatchCallback options); [|done].
  case_bool_decide; [apply Hle|done].
Qed.

Lemma consumeQueue_more_fuel fuel w w' :
  _consumeQueue options fuel w = Some w' →
  _consumeQueue options (S fuel) w = Some w'.
Proof.
  revert w w'. induction fuel as [|fuel IH]; intros w w'.
  - simpl. destruct (notify _ _ _) as [w1|] eqn:Hw1; [|done]. intros [= <-].
    erewrite notify_mono; [done| |exact Hw1].
    apply run_calls_mono, addQueue_with_mono. done.
  - intros Hw'. rewrite consumeQueue_unfold in Hw' |- *.
    destruct (notify options (reenter options (S fuel)) (clear_scheduler w))
      as [w1|] eqn:Hw1; [|done].
    erewrite notify_mono; [exact Hw'| |exact Hw1].
    apply run_calls_mono, addQueue_with_mono. exact IH.
Qed.

End fuel.

Lemma consumeQueue_queueRef options fuel w w' :
  _consumeQueue options fuel w = Some w' → queueRef w' = [].
Proof.
  rewrite consumeQueue_unfold.
  destruct (notify _ _ _); simpl; [by intros [= <-]|done].
Qed.

Lemma consumeQueue_calls_back options fuel w w' cb :
  onBatchCallback options = Some cb → length (queueRef w) ≠ 0%nat →
  _consumeQueue options fuel w = Some w' →
  extends (trace (clear_scheduler w) ++ [EvBatch (queueRef w)]) w'.
Proof.
  intros Hcb Hne. rewrite consumeQueue_unfold. unfold notify.
  rewrite Hcb, clear_scheduler_queueRef, bool_decide_eq_true_2 by done.
  destruct (reenter _ _ _ _) as [w1|] eqn:Hw1; simpl; [|done]. intros [= <-].
  change (extends (trace (clear_scheduler w) ++ [EvBatch (queueRef w)]) w1).
  eapply extends_reenter; [|exact Hw1].
  exists []. simpl. by rewrite app_nil_r.
Qed.

Lemma timers_tracked_schedule_if_idle options w :
  timers_tracked w → timers_tracked (schedule_if_idle options w).
Proof.
  intros Hw. unfold schedule_if_idle.
  destruct (timeoutRef w) eqn:Href; [done|]. by apply timers_tracked_schedule.
Qed.

Lemma clear_scheduler_no_timer w :
  timers_tracked w → timers (clear_scheduler w) = ∅.
Proof.
  intros Hw. apply timers_tracked_clear_scheduler in Hw as (Hinv & _).
  apply timer_inv_idle; [done|]. apply clear_scheduler_idle.
Qed.

Lemma flush_no_timer options w : timers_tracked w → timers (flush options w) = ∅.
Proof.
  intros Hw. rewrite flush_timers.
  apply clear_scheduler_no_timer in Hw. unfold clear_scheduler in Hw.
  by destruct (timeoutRef w).
Qed.

(** ** Flush on threshold *)

(** C3. With a threshold [N] configured, the accepted payload that brings
    the queue to size [N] is flushed inside its own [addQueue] call: the
    call ends in [_consumeQueue], which cancels the pending timeout and
    hands the whole queue, the new item included, to [onBatchCallback]
    before [addQueue] returns. *)
Theorem threshold_flush_is_synchronous options fuel now data w N :
  threshold options = Some N →
  batchRef w !! key_of options now data = None →
  Z.of_nat (length (set_add (hit options data) (queueRef w))) = N →
  let w2 := schedule_if_idle options
              (_enqueueBatch (key_of options now data) (hit options data) w) in
  addQueue options fuel now data w = _consumeQueue options fuel w2 ∧
  (∀ w', addQueue options fuel now data w = Some w' →
     getQueue w' = [] ∧
     ∀ cb, onBatchCallback options = Some cb →
       ∃ h rest,
         timeoutRef w2 = Some h ∧
         trace w' =
         trace w2 ++ EvClearTimeout h
           :: EvBatch (set_add (hit options data) (queueRef w)) :: rest) ∧
  (quiet options →
     ∃ w', addQueue options fuel now data w = Some w' ∧
       timeoutRef w' = None ∧
       (reachable options w → timers w' = ∅) ∧
       batches (trace w') =
       batches (trace w) ++
       match onBatchCallback options with
       | Some _ => [set_add (hit options data) (queueRef w)]
       | None => []
       end).
Proof.
  intros HN Hnew Hsize w2.
  pose proof (set_add_nonempty (hit options data) (queueRef w)) as Hne.
  assert (queueRef w2 = set_add (hit options data) (queueRef w)) as Hq2
    by (subst w2; by rewrite schedule_if_idle_queueRef).
  assert (addQueue options fuel now data w = _consumeQueue options fuel w2) as Hflush.
  { unfold addQueue, addQueue_with.
    rewrite bool_decide_eq_false_2 by (rewrite Hnew; by intros [? ?]).
    simpl. fold w2. rewrite bool_decide_eq_true_2; [done|].
    rewrite Hq2. unfold THRESHOLD, num_or. rewrite HN.
    destruct (Z.eqb_spec N 0); lia. }
  split_and!; [done| |].
  - intros w' Hw'. rewrite Hflush in Hw'. split.
    + by eapply consumeQueue_queueRef.
    + intros cb Hcb.
      destruct (schedule_if_idle_armed options
        (_enqueueBatch (key_of options now data) (hit options data) w))
        as [h Hh]. fold w2 in Hh.
      eapply consumeQueue_calls_back in Hw' as [rest Hrest];
        [|done|by rewrite Hq2].
      exists h, rest. split; [done|].
      rewrite Hrest, clear_scheduler_trace, Hh, Hq2, <-!app_assoc. done.
  - intros Hquiet. rewrite Hflush, consumeQueue_quiet by done.
    eexists. split; [done|]. split_and!.
    + apply flush_timeoutRef.
    + intros Hw. apply flush_no_timer. subst w2.
      apply timers_tracked_schedule_if_idle, timers_tracked_enqueue.
      by eapply timers_tracked_reachable.
    + rewrite flush_batches. subst w2.
      rewrite schedule_if_idle_batches, schedule_if_idle_queueRef. simpl.
      rewrite batches_app, app_nil_r.
      destruct (onBatchCallback options); [|done].
      by rewrite bool_decide_eq_true_2.
Qed.

(** ** The queue is a set of values *)

Lemma addQueue_below_threshold options fuel now data w :
  batchRef w !! key_of options now data = None →
  Z.of_nat (length (set_add (hit options data) (queueRef w))) < THRESHOLD options →
  addQueue options fuel now data w =
  Some (schedule_if_idle options
          (_enqueueBatch (key_of options now data) (hit options data) w)).
Proof.
  intros Hnew Hsize. unfold addQueue, addQueue_with.
  rewrite bool_decide_eq_false_2 by (rewrite Hnew; by intros [? ?]).
  simpl. rewrite bool_decide_eq_false_2; [done|].
  rewrite schedule_if_idle_queueRef. simpl. lia.
Qed.

(** C10. The queue is a [Set] of values, apart from the keys of the [Map]:
    when two payloads with distinct, unseen keys are turned into the same
    value by [onHitCallback], the second one gets its own entry in
    [batchRef] but leaves [queueRef] as it is, so the queue comes no closer
    to the threshold and the next batch holds the value once. *)
Theorem same_value_is_queued_once options fuel now1 data1 now2 data2 w :
  reachable options w →
  let k1 := key_of options now1 data1 in
  let k2 := key_of options now2 data2 in
  let v := hit options data1 in
  batchRef w !! k1 = None → batchRef w !! k2 = None → k1 ≠ k2 →
  hit options data2 = v →
  Z.of_nat (length (set_add v (queueRef w))) < THRESHOLD options →
  ∃ w1 w2,
    addQueue options fuel now1 data1 w = Some w1 ∧
    addQueue options fuel now2 data2 w1 = Some w2 ∧
    getBatch w1 !! k2 = None ∧
    getBatch w2 = <[k2 := v]> (getBatch w1) ∧
    size (getBatch w2) = S (size (getBatch w1)) ∧
    getQueue w2 = getQueue w1 ∧
    batches (trace w2) = batches (trace w) ∧
    occurrences v (getQueue w2) = 1%nat ∧
    (quiet options →
     ∃ w3, _cleanupQueue options fuel w2 = Some w3 ∧
       batches (trace w3) =
       batches (trace w2) ++
       match onBatchCallback options with
       | Some _ => [getQueue w2]
       | None => []
       end).
Proof.
  intros Hw k1 k2 v Hk1 Hk2 Hne Hsame Hsize.
  set (w1 := schedule_if_idle options (_enqueueBatch k1 v w)).
  set (w2 := schedule_if_idle options (_enqueueBatch k2 v w1)).
  assert (queueRef w1 = set_add v (queueRef w)) as Hq1
    by (subst w1; by rewrite schedule_if_idle_queueRef).
  assert (batchRef w1 = <[k1 := v]> (batchRef w)) as Hb1
    by (subst w1; by rewrite schedule_if_idle_batchRef).
  assert (batchRef w1 !! k2 = None) as Hk2'
    by (by rewrite Hb1, lookup_insert_ne).
  assert (queueRef w2 = queueRef w1) as Hq2.
  { subst w2. rewrite schedule_if_idle_queueRef. simpl.
    apply set_add_present. rewrite Hq1. apply set_add_elem. }
  assert (batchRef w2 = <[k2 := v]> (batchRef w1)) as Hb2
    by (subst w2; by rewrite schedule_if_idle_batchRef).
  exists w1, w2.
  unfold getBatch, getQueue. split_and!.
  - by apply addQueue_below_threshold.
  - subst w2 k2. rewrite <-Hsame. apply addQueue_below_threshold.
    + done.
    + rewrite Hsame, Hq1, set_add_present by apply set_add_elem. done.
  - done.
  - done.
  - rewrite Hb2. by apply map_size_insert_None.
  - done.
  - subst w2 w1. rewrite !schedule_if_idle_batches. simpl.
    rewrite batches_app, schedule_if_idle_batches. simpl.
    by rewrite batches_app, !app_nil_r.
  - rewrite Hq2, Hq1. apply occurrences_NoDup; [|apply set_add_elem].
    apply set_add_NoDup. by eapply queue_NoDup_reachable.
  - intros Hquiet. exists (clear_queue (clear_batch (flush options w2))).
    split; [by apply cleanupQueue_quiet|].
    change (batches (trace (flush options w2)) = batches (trace w2) ++
      match onBatchCallback options with Some _ => [queueRef w2] | None => [] end).
    rewrite flush_batches. destruct (onBatchCallback options); [|done].
    rewrite bool_decide_eq_true_2; [done|].
    rewrite Hq2, Hq1. apply set_add_nonempty.
Qed.

(** ** At most one timer *)

Lemma schedule_if_idle_next_timer options w :
  next_timer (schedule_if_idle options w) ≠ next_timer w ↔ timeoutRef w = None.
Proof.
  unfold schedule_if_idle. destruct (timeoutRef w); simpl.
  - split; [by intros []|done].
  - split; [done|]. intros _ Heq. by apply (Pos.succ_discr (next_timer w)).
Qed.

(** C6. In every reachable state at most one timeout is pending, and it is
    the one [timeoutRef] holds; every [setTimeout] of a run, nested calls
    included, found no timeout pending.  With a consumer that does not call
    back, a handle is held exactly while the queue is non-empty, so
    [addQueue] arms a timer exactly when it accepts a payload into an empty
    queue. *)
Theorem at_most_one_timer options w :
  reachable options w →
  (size (timers w) ≤ 1)%nat ∧
  (∀ h, is_Some (timers w !! h) → timeoutRef w = Some h) ∧
  dom (timers w) = pending_of (trace w) ∧
  one_at_a_time (trace w) ∧
  (quiet options →
     (timeoutRef w = None ↔ getQueue w = []) ∧
     ∀ fuel now data w',
       addQueue options fuel now data w = Some w' →
       (next_timer w' ≠ next_timer w ↔
        batchRef w !! key_of options now data = None ∧ getQueue w = []) ∧
       (next_timer w' ≠ next_timer w → timeoutRef w = None)).
Proof.
  intros Hw.
  pose proof (timers_tracked_reachable options w Hw) as (Hinv & Hdom & Hone & _).
  split_and!; [by apply timer_inv_size|done|done|done|].
  intros Hquiet.
  pose proof (settled_reachable options w Hquiet Hw) as [Hiff _].
  split; [done|]. intros fuel now data w'.
  rewrite addQueue_quiet by done. intros [= <-]. unfold getQueue.
  case_bool_decide as Hdup.
  - split; [|done]. split; [done|]. intros [Hnone _].
    rewrite Hnone in Hdup. by destruct Hdup.
  - assert (batchRef w !! key_of options now data = None) as Hnone
      by (by apply eq_None_not_Some).
    simpl.
    set (w1 := _enqueueBatch (key_of options now data) (hit options data) w).
    assert (next_timer (schedule_if_idle options w1) ≠ next_timer w ↔
            timeoutRef w = None) as Hnext
      by (apply (schedule_if_idle_next_timer options w1)).
    case_bool_decide; rewrite ?flush_next_timer, Hnext, Hiff; tauto.
Qed.

(** ** Cancel first, call back second *)

Lemma timer_fires_after_flush options fuel h w :
  queueRef w = [] →
  ∃ w', timer_fires options fuel h w = Some w' ∧
        batches (trace w') = batches (trace w) ∧ queueRef w' = [].
Proof.
  intros Hq. unfold timer_fires. destruct (timers w !! h); [|eauto].
  rewrite bool_decide_eq_false_2 by (simpl; rewrite Hq; by intros []).
  eexists. split; [done|]. simpl. by rewrite batches_app, app_nil_r.
Qed.

(** C7. [_consumeQueue] cancels the pending timeout and sets [timeoutRef] to
    [null] before it calls [onBatchCallback]: in every run, nested calls
    included, each call of the consumer found no timeout pending.  The
    consumer's own [addQueue] calls therefore start from a world without a
    handle (the first accepted one arms a fresh timer), and the batch just
    flushed is not flushed again: whatever timeout elapses after the flush
    finds the queue empty and calls nothing. *)
Theorem timer_is_cancelled_before_callback options :
  (∀ w, reachable options w → callback_after_cancel (trace w)) ∧
  (∀ w, reachable options w →
     timers_tracked w ∧
     (∀ key item,
        timers_tracked (schedule_if_idle options (_enqueueBatch key item w))) ∧
     (∀ h, is_Some (timers w !! h) → timers_tracked (expire h w))) ∧
  (∀ fuel w cb,
     timers_tracked w →
     onBatchCallback options = Some cb → length (queueRef w) ≠ 0%nat →
     let w0 := log (EvBatch (queueRef w)) (clear_scheduler w) in
     _consumeQueue options fuel w =
       clear_queue <$> reenter options fuel (cb (queueRef w)) w0 ∧
     timeoutRef w0 = None ∧ timers w0 = ∅ ∧
     ∀ consume now data,
       batchRef w !! key_of options now data = None →
       ∃ w1, timeoutRef w1 = Some (next_timer w) ∧
             timers w1 = {[next_timer w := TIMEOUT options]} ∧
             addQueue_with options consume now data w0 =
             if bool_decide (THRESHOLD options <= Z.of_nat (length (queueRef w1)))
             then consume w1 else Some w1) ∧
  (∀ fuel w w',
     _consumeQueue options fuel w = Some w' →
     ∀ fuel' h, ∃ w'',
       timer_fires options fuel' h w' = Some w'' ∧
       batches (trace w'') = batches (trace w')).
Proof.
  split_and!.
  - intros w Hw. by apply (timers_tracked_reachable options) in Hw as (_ & _ & _ & Hcb).
  - intros w Hw. apply (timers_tracked_reachable options) in Hw. split_and!.
    + done.
    + intros key item.
      by apply timers_tracked_schedule_if_idle, timers_tracked_enqueue.
    + intros h Hh. by apply timers_tracked_expire.
  - intros fuel w cb Hw Hcb Hne w0.
    assert (timeoutRef w0 = None) as Href by apply clear_scheduler_idle.
    assert (timers w0 = ∅) as Htimers by (by apply clear_scheduler_no_timer).
    split_and!; [|done|done|].
    + rewrite consumeQueue_unfold. unfold notify.
      by rewrite Hcb, clear_scheduler_queueRef, bool_decide_eq_true_2.
    + intros consume now data Hnew.
      exists (_scheduleQueueConsumption options
                (_enqueueBatch (key_of options now data) (hit options data) w0)).
      assert (next_timer (clear_scheduler w) = next_timer w) as Hnext
        by (unfold clear_scheduler; by destruct (timeoutRef w)).
      subst w0. simpl in Href, Htimers. split_and!; simpl.
      * by rewrite Hnext.
      * by rewrite Htimers, Hnext, insert_empty.
      * unfold addQueue_with. simpl. rewrite clear_scheduler_batchRef.
        rewrite bool_decide_eq_false_2 by (rewrite Hnew; by intros [? ?]).
        unfold schedule_if_idle. simpl. by rewrite Href.
  - intros fuel w w' Hw' fuel' h.
    apply consumeQueue_queueRef in Hw'.
    destruct (timer_fires_after_flush options fuel' h w' Hw') as (w'' & ? & ? & _).
    eauto.
Qed.

(** ** Teardown *)

Lemma flush_idle options w :
  timeoutRef w = None → queueRef w = [] → flush options w = w.
Proof.
  destruct w as [b q r ts n t]. simpl. intros -> ->.
  unfold flush, deliver, clear_scheduler. simpl.
  by destruct (onBatchCallback options).
Qed.

Lemma clear_all_idle w :
  batchRef w = ∅ → queueRef w = [] → clear_queue (clear_batch w) = w.
Proof. destruct w as [b q r ts n t]. simpl. by intros -> ->. Qed.

(** C8. Teardown flushes at once and then clears [batchRef] and [queueRef]
    whatever they hold: a queue holding one item gives one call of
    [onBatchCallback] with that item, no timeout is left pending to fire
    afterwards, and a second teardown changes nothing and calls nothing. *)
Theorem teardown_flushes_and_is_idempotent options fuel w :
  quiet options → reachable options w →
  ∃ w', _cleanupQueue options fuel w = Some w' ∧
    getBatch w' = ∅ ∧ getQueue w' = [] ∧
    timeoutRef w' = None ∧ timers w' = ∅ ∧
    (∀ x cb, getQueue w = [x] → onBatchCallback options = Some cb →
       batches (trace w') = batches (trace w) ++ [[x]]) ∧
    (getQueue w = [] → batches (trace w') = batches (trace w)) ∧
    (∀ fuel' h, timer_fires options fuel' h w' = Some w') ∧
    (∀ fuel', _cleanupQueue options fuel' w' = Some w').
Proof.
  intros Hquiet Hw.
  pose proof (timers_tracked_reachable options w Hw) as Htracked.
  exists (clear_queue (clear_batch (flush options w))).
  assert (timers (clear_queue (clear_batch (flush options w))) = ∅) as Htimers
    by (by apply (flush_no_timer options)).
  assert (timeoutRef (clear_queue (clear_batch (flush options w))) = None) as Href
    by apply flush_timeoutRef.
  unfold getBatch, getQueue. split_and!; try done.
  - by apply cleanupQueue_quiet.
  - intros x cb Hx Hcb.
    change (batches (trace (flush options w)) = batches (trace w) ++ [[x]]).
    by rewrite flush_batches, Hcb, Hx.
  - intros Hnil.
    change (batches (trace (flush options w)) = batches (trace w)).
    rewrite flush_batches, Hnil. destruct (onBatchCallback options); simpl;
      by rewrite app_nil_r.
  - intros fuel' h. unfold timer_fires. by rewrite Htimers, lookup_empty.
  - intros fuel'. rewrite cleanupQueue_quiet by done.
    rewrite (flush_idle options) by done. by rewrite clear_all_idle.
Qed.

(** ** The steps of a run, with a consumer that does not call back *)

Lemma step_quiet_step options w w' :
  quiet options → step options w w' → quiet_step options w w'.
Proof.
  intros Hquiet [fuel now data Hadd|fuel h Hh Hfire|fuel Hclean].
  - rewrite addQueue_quiet in Hadd by done. injection Hadd as <-.
    case_bool_decide as Hdup; [constructor|].
    apply eq_None_not_Some in Hdup. simpl.
    case_bool_decide; by constructor.
  - rewrite timer_fires_quiet in Hfire by done. injection Hfire as <-.
    case_bool_decide as Hq; [by constructor|].
    apply qs_timer_idle. by apply nil_length_inv.
  - rewrite cleanupQueue_quiet in Hclean by done. injection Hclean as <-.
    constructor.
Qed.

Lemma enqueueBatch_enqueued key item w :
  enqueued (trace (_enqueueBatch key item w)) = enqueued (trace w) ++ [item].
Proof. simpl. by rewrite enqueued_app. Qed.

Lemma enqueueBatch_batches key item w :
  batches (trace (_enqueueBatch key item w)) = batches (trace w).
Proof. simpl. by rewrite batches_app, app_nil_r. Qed.

Lemma expire_enqueued h w : enqueued (trace (expire h w)) = enqueued (trace w).
Proof. simpl. by rewrite enqueued_app, app_nil_r. Qed.

Lemma expire_batches h w : batches (trace (expire h w)) = batches (trace w).
Proof. simpl. by rewrite batches_app, app_nil_r. Qed.

Lemma flush_batches_consumer options cb w :
  onBatchCallback options = Some cb →
  concat (batches (trace (flush options w))) =
  concat (batches (trace w)) ++ queueRef w.
Proof.
  intros Hcb. rewrite flush_batches, Hcb, concat_app.
  case_bool_decide as Hq; simpl; [by rewrite app_nil_r|].
  apply nil_length_inv in Hq. by rewrite Hq.
Qed.

(** ** Arrival order *)

Lemma in_arrival_order_enqueue options key item w :
  in_arrival_order w →
  in_arrival_order (schedule_if_idle options (_enqueueBatch key item w)).
Proof.
  intros IH. unfold in_arrival_order.
  rewrite schedule_if_idle_enqueued, schedule_if_idle_batches,
    schedule_if_idle_queueRef, enqueueBatch_enqueued, enqueueBatch_batches.
  simpl. intros [Hnodup [Hfresh _]]%NoDup_app.
  specialize (IH Hnodup).
  rewrite set_add_fresh, app_assoc, IH; [done|].
  intros Hin. apply (Hfresh item); [|by apply list_elem_of_singleton].
  rewrite <-IH. apply elem_of_app. by right.
Qed.

Lemma in_arrival_order_flush options cb w :
  onBatchCallback options = Some cb →
  in_arrival_order w → in_arrival_order (flush options w).
Proof.
  intros Hcb IH. unfold in_arrival_order.
  rewrite flush_enqueued, (flush_batches_consumer options cb) by done.
  rewrite flush_queueRef, app_nil_r. exact IH.
Qed.

Lemma in_arrival_order_expire h w :
  in_arrival_order w → in_arrival_order (expire h w).
Proof.
  unfold in_arrival_order. by rewrite expire_enqueued, expire_batches.
Qed.

Lemma in_arrival_order_step options cb w w' :
  onBatchCallback options = Some cb →
  quiet_step options w w' → in_arrival_order w → in_arrival_order w'.
Proof.
  intros Hcb Hstep IH. destruct Hstep.
  - done.
  - by apply in_arrival_order_enqueue.
  - by eapply in_arrival_order_flush, in_arrival_order_enqueue.
  - by eapply in_arrival_order_flush, in_arrival_order_expire.
  - by apply in_arrival_order_expire.
  - apply (in_arrival_order_flush options cb) in IH; [|done].
    unfold in_arrival_order in *. simpl. rewrite app_nil_r.
    rewrite flush_queueRef, app_nil_r in IH. exact IH.
Qed.

Lemma in_arrival_order_reachable options w :
  quiet options → is_Some (onBatchCallback options) →
  reachable options w → in_arrival_order w.
Proof.
  intros Hquiet [cb Hcb]. revert w. apply rtc_ind_r.
  - by intros _.
  - intros w1 w2 _ Hstep IH.
    eapply in_arrival_order_step; [done| |done].
    by apply step_quiet_step.
Qed.

(** ** Scripted runs are runs *)

Lemma do_op_reachable options fuel o w w' :
  reachable options w → do_op options fuel o w = Some w' → reachable options w'.
Proof.
  intros Hw. destruct o as [now data|h|]; simpl; intros Hop.
  - eapply rtc_r; [exact Hw|]. by eapply step_addQueue.
  - destruct (timers w !! h) as [ms|] eqn:Hh.
    + eapply rtc_r; [exact Hw|]. eapply step_timer; [|done]. by rewrite Hh.
    + unfold timer_fires in Hop. rewrite Hh in Hop. by injection Hop as <-.
  - eapply rtc_r; [exact Hw|]. by eapply step_cleanup.
Qed.

Lemma run_reachable_from options fuel ops w w' :
  reachable options w → run options fuel ops w = Some w' → reachable options w'.
Proof.
  revert w. induction ops as [|o ops IH]; intros w Hw; simpl.
  - by intros [= <-].
  - destruct (do_op options fuel o w) as [w1|] eqn:Hop; [|done].
    apply IH. by eapply do_op_reachable.
Qed.

Lemma run_reachable options fuel ops w :
  run options fuel ops init = Some w → reachable options w.
Proof. apply run_reachable_from. apply rtc_refl. Qed.

Lemma by_id_quiet n : quiet (by_id n).
Proof. by intros cb items [= <-]. Qed.

Lemma all_x_quiet n : quiet (all_x n).
Proof. by intros cb items [= <-]. Qed.

Lemma by_clock_quiet n : quiet (by_clock n).
Proof. by intros cb items [= <-]. Qed.

(** ** Every accepted payload, once, in order *)

(** C4, as the hook has it.  With a consumer that does not call back, and
    as long as the accepted payloads are queued as pairwise distinct values,
    the batches handed over, followed by what is still queued, list the
    accepted payloads in arrival order: none is in two batches, none twice
    in one, and after a teardown none is missing. *)
Theorem accepted_payloads_are_delivered_in_order options w :
  quiet options → is_Some (onBatchCallback options) →
  reachable options w →
  NoDup (enqueued (trace w)) →
  concat (batches (trace w)) ++ getQueue w = enqueued (trace w) ∧
  NoDup (concat (batches (trace w)) ++ getQueue w) ∧
  ∀ fuel, ∃ w',
    _cleanupQueue options fuel w = Some w' ∧
    enqueued (trace w') = enqueued (trace w) ∧
    concat (batches (trace w')) = enqueued (trace w).
Proof.
  intros Hquiet Hcb Hw Hnodup.
  pose proof (in_arrival_order_reachable options w Hquiet Hcb Hw Hnodup) as Heq.
  unfold getQueue. split_and!; [done|by rewrite Heq|].
  intros fuel. eexists. split; [by apply cleanupQueue_quiet|].
  destruct Hcb as [cb Hcb]. split.
  - apply flush_enqueued.
  - change (concat (batches (trace (flush options w))) = enqueued (trace w)).
    by rewrite (flush_batches_consumer options cb).
Qed.

(** C4 as stated fails when two accepted payloads are queued as the same
    value.  Threshold 2, every payload queued as ['x']: ids 1 and 2 are both
    accepted, the timeout flushes [['x']]; id 3 is accepted and the teardown
    flushes [['x']] again.  Three accepted payloads, two entries handed
    over, the same value in two batches. *)
Lemma same_value_breaks_one_entry_per_payload :
  ∃ w, run (all_x (Some 2)) 0
         [Add 0 (item 1 1); Add 1 (item 2 2); Timer 1; Add 2 (item 3 3); Teardown]
         init = Some w ∧
       enqueued (trace w) = [VStr "x"; VStr "x"; VStr "x"] ∧
       batches (trace w) = [[VStr "x"]; [VStr "x"]] ∧
       concat (batches (trace w)) ≠ enqueued (trace w) ∧
       ¬ NoDup (concat (batches (trace w))).
Proof.
  eexists. split; [vm_compute; reflexivity|]. simpl.
  split_and!; [done|done|done|].
  intros Hnodup. apply NoDup_cons in Hnodup as [Hx _].
  apply Hx. by apply list_elem_of_singleton.
Qed.

(** ** What a flush resets *)

(** C1, as the hook has it.  Every flush empties [queueRef], so [getQueue]
    reports empty right after it.  Only the teardown also clears
    [batchRef]: after it [getBatch] reports empty and every payload, one
    with a key seen before included, is accepted.  A flush by threshold or
    by timer leaves [batchRef] as it is: [getBatch] still reports the keys
    seen, and a payload with such a key is still dropped. *)
Theorem flush_empties_queue_teardown_empties_seen options fuel w :
  quiet options →
  (∀ now data,
     batchRef w !! key_of options now data = None →
     THRESHOLD options <=
       Z.of_nat (length (set_add (hit options data) (queueRef w))) →
     ∃ w', addQueue options fuel now data w = Some w' ∧
       getQueue w' = [] ∧
       getBatch w' = <[key_of options now data := hit options data]> (getBatch w) ∧
       ∀ now' data',
         is_Some (getBatch w' !! key_of options now' data') →
         addQueue options fuel now' data' w' = Some w') ∧
  (∀ h,
     is_Some (timers w !! h) → length (queueRef w) ≠ 0%nat →
     ∃ w', timer_fires options fuel h w = Some w' ∧
       getQueue w' = [] ∧
       getBatch w' = getBatch w ∧
       ∀ now' data',
         is_Some (getBatch w !! key_of options now' data') →
         addQueue options fuel now' data' w' = Some w') ∧
  (∃ w', _cleanupQueue options fuel w = Some w' ∧
     getQueue w' = [] ∧
     getBatch w' = ∅ ∧
     ∀ now' data', ∃ w'',
       addQueue options fuel now' data' w' = Some w'' ∧
       getBatch w'' !! key_of options now' data' = Some (hit options data') ∧
       enqueued (trace w'') = enqueued (trace w') ++ [hit options data']).
Proof.
  intros Hquiet. unfold getQueue, getBatch. split_and!.
  - intros now data Hnew Hsize. eexists. split_and!.
    + rewrite addQueue_quiet by done.
      rewrite bool_decide_eq_false_2 by (rewrite Hnew; by intros [? ?]).
      simpl. rewrite bool_decide_eq_true_2; [done|].
      by rewrite schedule_if_idle_queueRef.
    + done.
    + by rewrite flush_batchRef, schedule_if_idle_batchRef.
    + intros now' data' Hseen. by apply addQueue_duplicate.
  - intros h Hh Hq. eexists. split_and!.
    + rewrite timer_fires_quiet by done. by rewrite bool_decide_eq_true_2.
    + done.
    + by rewrite flush_batchRef.
    + intros now' data' Hseen. apply addQueue_duplicate.
      by rewrite flush_batchRef.
  - eexists. split_and!; [by apply cleanupQueue_quiet|done|done|].
    intros now' data'.
    destruct (addQueue_accepts options fuel now' data'
                (clear_queue (clear_batch (flush options w))) Hquiet)
      as (w'' & Hw'' & Hb & He); [apply lookup_empty|].
    exists w''. split_and!; [done| |done].
    rewrite Hb. apply lookup_insert_eq.
Qed.

(** C1 as stated fails for a flush by threshold.  With the default
    threshold 1 the payload [{id: 7}] is flushed by its own [addQueue]; right
    after, [getQueue] is empty but [getBatch] still maps 7 to the payload,
    and a second payload [{id: 7}] is dropped: the world does not change. *)
Lemma seen_survives_threshold_flush :
  ∃ w, addQueue (by_id None) 0 0 (item 1 7) init = Some w ∧
       batches (trace w) = [[VObj 1]] ∧
       getQueue w = [] ∧
       getBatch w = {[ VNum 7 := VObj 1 ]} ∧
       getBatch w ≠ ∅ ∧
       addQueue (by_id None) 0 1 (item 2 7) w = Some w.
Proof.
  eexists. split; [vm_compute; reflexivity|].
  split_and!; done.
Qed.

(** ** The next batch *)

Lemma extends_steps options t w w' :
  extends t w → rtc (step options) w w' → extends t w'.
Proof.
  destruct (extends_invariant options t) as (H1 & H2 & H3 & H4 & H5).
  apply (steps_preserve options (extends t)); try done.
  intros h w0 Hw0 _. by eapply extends_snoc.
Qed.

Lemma batches_grow options w w' :
  rtc (step options) w w' →
  ∃ more, batches (trace w') = batches (trace w) ++ more.
Proof.
  intros Hsteps.
  destruct (extends_steps options (trace w) w w') as [rest Hrest]; [|done|].
  - exists []. by rewrite app_nil_r.
  - exists (batches rest). by rewrite Hrest, batches_app.
Qed.

(** A step hands over nothing and keeps what is queued, or hands over one
    batch that holds, once each, all that was queued. *)
Lemma quiet_step_next_batch options cb w w' :
  onBatchCallback options = Some cb →
  quiet_step options w w' → NoDup (queueRef w) →
  (batches (trace w') = batches (trace w) ∧
   (∀ v, v ∈ queueRef w → v ∈ queueRef w') ∧ NoDup (queueRef w')) ∨
  (∃ b, batches (trace w') = batches (trace w) ++ [b] ∧
        (∀ v, v ∈ queueRef w → v ∈ b) ∧ NoDup b).
Proof.
  intros Hcb Hstep Hnodup. destruct Hstep as [|key item _|key item _|h Hq|h Hq|].
  - by left.
  - left. rewrite schedule_if_idle_batches, schedule_if_idle_queueRef,
      enqueueBatch_batches. simpl. split_and!; [done| |by apply set_add_NoDup].
    intros v. apply set_add_keeps.
  - right. exists (set_add item (queueRef w)).
    rewrite flush_batches, Hcb, schedule_if_idle_batches, schedule_if_idle_queueRef,
      enqueueBatch_batches. simpl.
    rewrite bool_decide_eq_true_2 by apply set_add_nonempty.
    split_and!; [done| |by apply set_add_NoDup].
    intros v. apply set_add_keeps.
  - right. exists (queueRef w).
    rewrite flush_batches, Hcb, expire_batches. simpl.
    by rewrite bool_decide_eq_true_2.
  - left. by rewrite expire_batches.
  - destruct (decide (length (queueRef w) = 0%nat)) as [Hq|Hq].
    + left. simpl.
      split_and!; [|by rewrite (nil_length_inv _ Hq)|apply NoDup_nil_2].
      change (batches (trace (flush options w)) = batches (trace w)).
      rewrite flush_batches, Hcb, bool_decide_eq_false_2 by (by intros []).
      by rewrite app_nil_r.
    + right. exists (queueRef w).
      change (batches (trace (flush options w)) = batches (trace w) ++ [queueRef w]
              ∧ (∀ v, v ∈ queueRef w → v ∈ queueRef w) ∧ NoDup (queueRef w)).
      by rewrite flush_batches, Hcb, bool_decide_eq_true_2.
Qed.

Lemma no_consumer_no_batch options w w' :
  onBatchCallback options = None →
  quiet_step options w w' → batches (trace w') = batches (trace w).
Proof.
  intros Hcb Hstep. destruct Hstep;
    rewrite ?flush_batches, ?Hcb, ?schedule_if_idle_batches,
      ?enqueueBatch_batches, ?expire_batches, ?app_nil_r; try done.
  change (batches (trace (flush options w)) = batches (trace w)).
  by rewrite flush_batches, Hcb, app_nil_r.
Qed.

Lemma no_consumer_no_batches options w w' :
  quiet options → onBatchCallback options = None →
  rtc (step options) w w' → batches (trace w') = batches (trace w).
Proof.
  intros Hquiet Hcb Hsteps.
  induction Hsteps as [w|w w1 w' Hstep _ IH]; [done|].
  rewrite IH. apply (no_consumer_no_batch options); [done|].
  by apply step_quiet_step.
Qed.

Lemma first_batch_holds_once options v w w' :
  quiet options →
  rtc (step options) w w' →
  NoDup (queueRef w) → v ∈ queueRef w →
  ∀ b rest,
    batches (trace w') = batches (trace w) ++ b :: rest →
    occurrences v b = 1%nat.
Proof.
  intros Hquiet Hsteps.
  induction Hsteps as [w|w w1 w' Hstep Hsteps IH]; intros Hnodup Hv b rest Hb.
  - rewrite <-(app_nil_r (batches (trace w))) in Hb at 1.
    by apply app_inv_head in Hb.
  - apply step_quiet_step in Hstep; [|done].
    destruct (onBatchCallback options) as [cb|] eqn:Hcb.
    + destruct (quiet_step_next_batch options cb w w1 Hcb Hstep Hnodup)
        as [(Hsame & Hkeep & Hnodup1)|(b1 & Hone & Hall & Hnodup1)].
      * apply (IH Hnodup1 (Hkeep v Hv) b rest). by rewrite Hsame.
      * destruct (batches_grow options w1 w' Hsteps) as [more Hmore].
        rewrite Hmore, Hone, <-app_assoc in Hb.
        apply app_inv_head in Hb. injection Hb as <- _.
        apply occurrences_NoDup; [done|by apply Hall].
    + exfalso.
      rewrite (no_consumer_no_batches options w1 w' Hquiet Hcb Hsteps),
        (no_consumer_no_batch options w w1 Hcb Hstep) in Hb.
      rewrite <-(app_nil_r (batches (trace w))) in Hb at 1.
      by apply app_inv_head in Hb.
Qed.

(** ** Duplicates *)

(** C2, as the hook has it.  A payload whose key is in [batchRef] is
    dropped: [addQueue] returns with the world unchanged.  When the value
    recorded under the key is still queued, the next batch handed over holds
    it exactly once; so two payloads with one key submitted before a flush
    give one entry, the first payload.  (A key whose value a timer or a
    threshold flush has already handed over stays in [batchRef]; the next
    batch then has no entry for it.) *)
Theorem duplicate_key_is_dropped options :
  (∀ fuel now data w,
     is_Some (getBatch w !! key_of options now data) →
     addQueue options fuel now data w = Some w) ∧
  (quiet options →
   ∀ w k v,
     reachable options w → getBatch w !! k = Some v → v ∈ getQueue w →
     ∀ w' b rest,
       rtc (step options) w w' →
       batches (trace w') = batches (trace w) ++ b :: rest →
       occurrences v b = 1%nat) ∧
  (quiet options →
   ∀ fuel now1 data1 now2 data2 w,
     reachable options w →
     key_of options now2 data2 = key_of options now1 data1 →
     getBatch w !! key_of options now1 data1 = None →
     Z.of_nat (length (set_add (hit options data1) (queueRef w)))
       < THRESHOLD options →
     ∃ w1,
       addQueue options fuel now1 data1 w = Some w1 ∧
       addQueue options fuel now2 data2 w1 = Some w1 ∧
       getBatch w1 !! key_of options now1 data1 = Some (hit options data1) ∧
       ∀ w' b rest,
         rtc (step options) w1 w' →
         batches (trace w') = batches (trace w1) ++ b :: rest →
         occurrences (hit options data1) b = 1%nat).
Proof.
  unfold getBatch, getQueue. split_and!.
  - intros fuel now data w. apply addQueue_duplicate.
  - intros Hquiet w k v Hw _ Hv w' b rest Hsteps.
    apply (first_batch_holds_once options v w w'); try done.
    by eapply queue_NoDup_reachable.
  - intros Hquiet fuel now1 data1 now2 data2 w Hw Hkey Hnew Hsize.
    set (w1 := schedule_if_idle options
                 (_enqueueBatch (key_of options now1 data1) (hit options data1) w)).
    assert (batchRef w1 !! key_of options now1 data1 = Some (hit options data1))
      as Hb1.
    { subst w1. rewrite schedule_if_idle_batchRef. simpl. apply lookup_insert_eq. }
    assert (addQueue options fuel now1 data1 w = Some w1) as Hw1
      by (by apply addQueue_below_threshold).
    exists w1. split_and!; [done| |done|].
    + apply addQueue_duplicate. rewrite Hkey, Hb1. eauto.
    + intros w' b rest Hsteps.
      apply (first_batch_holds_once options _ w1 w'); try done.
      * eapply queue_NoDup_reachable, rtc_r; [exact Hw|].
        by eapply step_addQueue.
      * subst w1. rewrite schedule_if_idle_queueRef. apply set_add_elem.
Qed.

(** C2 as stated fails for a key whose payload has been handed over.  With
    the default threshold 1, [{id: 7}] is flushed by its own [addQueue] and 7
    stays in [batchRef]; a second [{id: 7}] is dropped, and the next batch,
    flushed for [{id: 8}], holds no entry for key 7. *)
Lemma dropped_key_absent_from_next_batch :
  ∃ w1 w2,
    addQueue (by_id None) 0 0 (item 1 7) init = Some w1 ∧
    key_of (by_id None) 1 (item 2 7) = VNum 7 ∧
    getBatch w1 !! VNum 7 = Some (VObj 1) ∧
    addQueue (by_id None) 0 1 (item 2 7) w1 = Some w1 ∧
    addQueue (by_id None) 0 2 (item 3 8) w1 = Some w2 ∧
    batches (trace w2) = batches (trace w1) ++ [[VObj 3]] ∧
    occurrences (VObj 1) [VObj 3] = 0%nat ∧
    occurrences (VObj 2) [VObj 3] = 0%nat.
Proof.
  eexists. eexists. split; [vm_compute; reflexivity|].
  split; [done|]. split; [done|]. split; [done|].
  split; [vm_compute; reflexivity|]. done.
Qed.

(** * Instances

    Each property above, at a concrete run. *)

Lemma after_reachable options ops : reachable options (after options ops).
Proof.
  unfold after. destruct (run options 0 ops init) as [w|] eqn:Hrun; simpl.
  - by eapply run_reachable.
  - apply rtc_refl.
Qed.

Lemma flush_empties_queue_teardown_empties_seen_witness :
  quiet (by_id (Some 2)) ∧
  batchRef one_queued !! key_of (by_id (Some 2)) 1 (item 2 8) = None ∧
  THRESHOLD (by_id (Some 2)) <=
    Z.of_nat (length (set_add (hit (by_id (Some 2)) (item 2 8)) (queueRef one_queued))) ∧
  is_Some (timers one_queued !! 1%positive) ∧
  (∃ w', addQueue (by_id (Some 2)) 0 1 (item 2 8) one_queued = Some w' ∧
         getQueue w' = [] ∧
         getBatch w' = <[VNum 8 := VObj 2]> (getBatch one_queued)) ∧
  (∃ w', timer_fires (by_id (Some 2)) 0 1 one_queued = Some w' ∧
         getQueue w' = [] ∧ getBatch w' = getBatch one_queued) ∧
  (∃ w', _cleanupQueue (by_id (Some 2)) 0 one_queued = Some w' ∧
         getQueue w' = [] ∧ getBatch w' = ∅).
Proof.
  assert (quiet (by_id (Some 2))) as Hquiet
    by (intros cb items [= <-]; reflexivity).
  assert (batchRef one_queued !! key_of (by_id (Some 2)) 1 (item 2 8) = None)
    as Hnew by (vm_compute; reflexivity).
  assert (THRESHOLD (by_id (Some 2)) <=
    Z.of_nat (length (set_add (hit (by_id (Some 2)) (item 2 8)) (queueRef one_queued))))
    as Hsize by (vm_compute; discriminate).
  assert (is_Some (timers one_queued !! 1%positive)) as Hh
    by (vm_compute; eexists; reflexivity).
  assert (length (queueRef one_queued) ≠ 0%nat) as Hq
    by (vm_compute; discriminate).
  destruct (flush_empties_queue_teardown_empties_seen
              (by_id (Some 2)) 0 one_queued Hquiet) as (Hthr & Htimer & Htear).
  destruct (Hthr 1 (item 2 8) Hnew Hsize) as (w1 & Hw1 & Hq1 & Hb1 & _).
  destruct (Htimer 1%positive Hh Hq) as (w2 & Hw2 & Hq2 & Hb2 & _).
  destruct Htear as (w3 & Hw3 & Hq3 & Hb3 & _).
  split_and!; try done.
  - exists w1. split_and!; done.
  - exists w2. split_and!; done.
  - exists w3. split_and!; done.
Defined.

Lemma duplicate_key_is_dropped_witness :
  quiet (by_id (Some 2)) ∧
  reachable (by_id (Some 2)) init ∧
  key_of (by_id (Some 2)) 1 (item 2 7) = key_of (by_id (Some 2)) 0 (item 1 7) ∧
  getBatch init !! key_of (by_id (Some 2)) 0 (item 1 7) = None ∧
  Z.of_nat (length (set_add (hit (by_id (Some 2)) (item 1 7)) (queueRef init)))
    < THRESHOLD (by_id (Some 2)) ∧
  is_Some (getBatch one_queued !! key_of (by_id (Some 2)) 1 (item 2 7)) ∧
  addQueue (by_id (Some 2)) 0 1 (item 2 7) one_queued = Some one_queued ∧
  ∃ w1, addQueue (by_id (Some 2)) 0 0 (item 1 7) init = Some w1 ∧
        addQueue (by_id (Some 2)) 0 1 (item 2 7) w1 = Some w1 ∧
        getBatch w1 !! key_of (by_id (Some 2)) 0 (item 1 7) = Some (VObj 1) ∧
        ∀ w' b rest,
          rtc (step (by_id (Some 2))) w1 w' →
          batches (trace w') = batches (trace w1) ++ b :: rest →
          occurrences (VObj 1) b = 1%nat.
Proof.
  assert (quiet (by_id (Some 2))) as Hquiet
    by (intros cb items [= <-]; reflexivity).
  assert (reachable (by_id (Some 2)) init) as Hinit by apply rtc_refl.
  assert (key_of (by_id (Some 2)) 1 (item 2 7) =
          key_of (by_id (Some 2)) 0 (item 1 7)) as Hkey by reflexivity.
  assert (getBatch init !! key_of (by_id (Some 2)) 0 (item 1 7) = None) as Hnew
    by (vm_compute; reflexivity).
  assert (Z.of_nat (length (set_add (hit (by_id (Some 2)) (item 1 7)) (queueRef init)))
            < THRESHOLD (by_id (Some 2))) as Hsize by (vm_compute; reflexivity).
  assert (is_Some (getBatch one_queued !! key_of (by_id (Some 2)) 1 (item 2 7)))
    as Hseen by (vm_compute; eexists; reflexivity).
  destruct (duplicate_key_is_dropped (by_id (Some 2))) as (Hdrop & _ & Hfirst).
  destruct (Hfirst Hquiet 0%nat 0 (item 1 7) 1 (item 2 7) init Hinit Hkey Hnew Hsize)
    as (w1 & Hw1 & Hw2 & Hb & Hnext).
  split_and!; [done|done|done|done|done|done|by apply Hdrop|].
  exists w1. split_and!; done.
Defined.

Lemma threshold_flush_is_synchronous_witness :
  threshold (by_id (Some 2)) = Some 2 ∧
  batchRef one_queued !! key_of (by_id (Some 2)) 1 (item 2 8) = None ∧
  Z.of_nat (length (set_add (hit (by_id (Some 2)) (item 2 8)) (queueRef one_queued)))
    = 2 ∧
  quiet (by_id (Some 2)) ∧
  ∃ w', addQueue (by_id (Some 2)) 0 1 (item 2 8) one_queued = Some w' ∧
        timeoutRef w' = None ∧
        batches (trace w') = batches (trace one_queued) ++ [[VObj 1; VObj 2]].
Proof.
  assert (threshold (by_id (Some 2)) = Some 2) as HN by reflexivity.
  assert (batchRef one_queued !! key_of (by_id (Some 2)) 1 (item 2 8) = None)
    as Hnew by (vm_compute; reflexivity).
  assert (Z.of_nat (length (set_add (hit (by_id (Some 2)) (item 2 8))
                                    (queueRef one_queued))) = 2) as Hsize
    by (vm_compute; reflexivity).
  assert (quiet (by_id (Some 2))) as Hquiet
    by (intros cb items [= <-]; reflexivity).
  destruct (threshold_flush_is_synchronous (by_id (Some 2)) 0 1 (item 2 8)
              one_queued 2 HN Hnew Hsize) as (_ & _ & Hflush).
  destruct (Hflush Hquiet) as (w' & Hw' & Href & _ & Hbatches).
  split_and!; try done.
  exists w'. split_and!; done.
Defined.

Lemma accepted_payloads_are_delivered_in_order_witness :
  quiet (by_id (Some 2)) ∧
  is_Some (onBatchCallback (by_id (Some 2))) ∧
  reachable (by_id (Some 2))
    (after (by_id (Some 2)) [Add 0 (item 1 7); Add 1 (item 2 8); Add 2 (item 3 9)]) ∧
  NoDup (enqueued (trace
    (after (by_id (Some 2)) [Add 0 (item 1 7); Add 1 (item 2 8); Add 2 (item 3 9)]))) ∧
  concat (batches (trace
    (after (by_id (Some 2)) [Add 0 (item 1 7); Add 1 (item 2 8); Add 2 (item 3 9)])))
  ++ getQueue
    (after (by_id (Some 2)) [Add 0 (item 1 7); Add 1 (item 2 8); Add 2 (item 3 9)])
  = [VObj 1; VObj 2; VObj 3].
Proof.
  assert (quiet (by_id (Some 2))) as Hquiet
    by (intros cb items [= <-]; reflexivity).
  assert (is_Some (onBatchCallback (by_id (Some 2)))) as Hcb
    by (eexists; reflexivity).
  pose proof (after_reachable (by_id (Some 2))
    [Add 0 (item 1 7); Add 1 (item 2 8); Add 2 (item 3 9)]) as Hw.
  assert (NoDup (enqueued (trace
    (after (by_id (Some 2)) [Add 0 (item 1 7); Add 1 (item 2 8); Add 2 (item 3 9)]))))
    as Hnodup by (apply (bool_decide_unpack _); vm_compute; exact I).
  destruct (accepted_payloads_are_delivered_in_order (by_id (Some 2)) _
              Hquiet Hcb Hw Hnodup) as (Heq & _ & _).
  split_and!; try done.
Defined.

Lemma dedup_key_is_field_or_timestamp_witness :
  props (item 1 7) !! to_property_key (BATCH_KEY (by_id None)) = Some (VNum 7) ∧
  truthy (VNum 7) = true ∧
  key_of (by_id None) 5 (item 1 7) = VNum 7 ∧
  props (item 1 0) !! to_property_key (BATCH_KEY (by_id None)) = Some (VNum 0) ∧
  truthy (VNum 0) = false ∧
  key_of (by_id None) 5 (item 1 0) = VNum 5 ∧
  quiet (by_clock (Some 5)) ∧
  lacks_field (by_clock (Some 5)) (item 1 7) ∧
  batchRef init !! VNum 0 = None ∧ batchRef init !! VNum 1 = None ∧
  ∃ w1 w2,
    addQueue (by_clock (Some 5)) 0 0 (item 1 7) init = Some w1 ∧
    addQueue (by_clock (Some 5)) 0 0 (item 2 8) w1 = Some w1 ∧
    addQueue (by_clock (Some 5)) 0 1 (item 1 7) w1 = Some w2 ∧
    enqueued (trace w2) = [VObj 1; VObj 1].
Proof.
  assert (props (item 1 7) !! to_property_key (BATCH_KEY (by_id None))
          = Some (VNum 7)) as H7 by (vm_compute; reflexivity).
  assert (props (item 1 0) !! to_property_key (BATCH_KEY (by_id None))
          = Some (VNum 0)) as H0 by (vm_compute; reflexivity).
  assert (quiet (by_clock (Some 5))) as Hquiet
    by (intros cb items [= <-]; reflexivity).
  assert (lacks_field (by_clock (Some 5)) (item 1 7)) as Hlack7
    by (vm_compute; reflexivity).
  assert (lacks_field (by_clock (Some 5)) (item 2 8)) as Hlack8
    by (vm_compute; reflexivity).
  assert (batchRef init !! VNum 0 = None) as Hn0 by (vm_compute; reflexivity).
  assert (batchRef init !! VNum 1 = None) as Hn1 by (vm_compute; reflexivity).
  destruct (dedup_key_is_field_or_timestamp (by_id None) 5 (item 1 7))
    as (Hfield & _ & _).
  destruct (dedup_key_is_field_or_timestamp (by_id None) 5 (item 1 0))
    as (_ & Hstamp & _).
  destruct (dedup_key_is_field_or_timestamp (by_clock (Some 5)) 0 (item 1 7))
    as (_ & _ & Hclock).
  destruct (Hclock 0%nat 0 (item 2 8) init Hquiet Hlack7 Hlack8 Hn0 Hn0)
    as (w1 & Hw1 & Hsame).
  destruct (Hclock 0%nat 1 (item 1 7) init Hquiet Hlack7 Hlack7 Hn0 Hn1)
    as (w1' & Hw1' & w2 & Hw2 & He2).
  rewrite Hw1 in Hw1'. injection Hw1' as <-.
  split_and!; [done|done|by apply Hfield|done|done| |done|done|done|done|].
  - apply Hstamp. right. by exists (VNum 0).
  - exists w1, w2. split_and!; done.
Defined.

Lemma at_most_one_timer_witness :
  reachable (by_id (Some 2)) one_queued ∧
  quiet (by_id (Some 2)) ∧
  (size (timers one_queued) ≤ 1)%nat ∧
  timeoutRef one_queued = Some 1%positive ∧
  one_at_a_time (trace one_queued) ∧
  (timeoutRef one_queued = None ↔ getQueue one_queued = []).
Proof.
  pose proof (after_reachable (by_id (Some 2)) [Add 0 (item 1 7)]) as Hw.
  assert (quiet (by_id (Some 2))) as Hquiet
    by (intros cb items [= <-]; reflexivity).
  assert (is_Some (timers one_queued !! 1%positive)) as Hh
    by (vm_compute; eexists; reflexivity).
  destruct (at_most_one_timer (by_id (Some 2)) one_queued Hw)
    as (Hsize & Hheld & _ & Hone & Hsettled).
  destruct (Hsettled Hquiet) as [Hiff _].
  split_and!; [done|done|done|by apply Hheld|done|done].
Defined.

Lemma timer_is_cancelled_before_callback_witness :
  reachable (calls_back (Some 2)) (after (calls_back (Some 2)) [Add 0 (item 1 7)]) ∧
  length (queueRef (after (calls_back (Some 2)) [Add 0 (item 1 7)])) ≠ 0%nat ∧
  batchRef (after (calls_back (Some 2)) [Add 0 (item 1 7)])
    !! key_of (calls_back (Some 2)) 5 (item 9 99) = None ∧
  callback_after_cancel (trace (after (calls_back (Some 2)) [Add 0 (item 1 7)])) ∧
  (∃ cb, onBatchCallback (calls_back (Some 2)) = Some cb ∧
         cb [VObj 1] = [(5, item 9 99)]) ∧
  timeoutRef (log (EvBatch [VObj 1])
                (clear_scheduler (after (calls_back (Some 2)) [Add 0 (item 1 7)])))
    = None ∧
  timers (log (EvBatch [VObj 1])
            (clear_scheduler (after (calls_back (Some 2)) [Add 0 (item 1 7)])))
    = ∅ ∧
  ∃ w1, timeoutRef w1 = Some 2%positive ∧ timers w1 = {[ 2%positive := 10 ]}.
Proof.
  pose proof (after_reachable (calls_back (Some 2)) [Add 0 (item 1 7)]) as Hw.
  assert (length (queueRef (after (calls_back (Some 2)) [Add 0 (item 1 7)])) ≠ 0%nat)
    as Hq by (vm_compute; discriminate).
  assert (batchRef (after (calls_back (Some 2)) [Add 0 (item 1 7)])
            !! key_of (calls_back (Some 2)) 5 (item 9 99) = None) as Hnew
    by (vm_compute; reflexivity).
  destruct (onBatchCallback (calls_back (Some 2))) as [cb|] eqn:Hcb;
    [|discriminate Hcb].
  assert (cb [VObj 1] = [(5, item 9 99)]) as Hanswer
    by (injection Hcb as <-; reflexivity).
  destruct (timer_is_cancelled_before_callback (calls_back (Some 2)))
    as (Htrace & Htracked & Hcall & _).
  destruct (Htracked _ Hw) as (Hinv & _ & _).
  destruct (Hcall 0%nat _ cb Hinv Hcb Hq) as (_ & Href & Htimers & Hfresh).
  destruct (Hfresh (_consumeQueue (calls_back (Some 2)) 0) 5 (item 9 99) Hnew)
    as (w1 & Hr1 & Ht1 & _).
  split_and!; [done|done|done|by apply Htrace|by exists cb|done|done|].
  exists w1. split_and!; done.
Defined.

Lemma teardown_flushes_and_is_idempotent_witness :
  quiet (by_id (Some 2)) ∧
  reachable (by_id (Some 2)) one_queued ∧
  getQueue one_queued = [VObj 1] ∧
  ∃ w', _cleanupQueue (by_id (Some 2)) 0 one_queued = Some w' ∧
        getBatch w' = ∅ ∧ getQueue w' = [] ∧ timers w' = ∅ ∧
        batches (trace w') = batches (trace one_queued) ++ [[VObj 1]] ∧
        _cleanupQueue (by_id (Some 2)) 0 w' = Some w'.
Proof.
  assert (quiet (by_id (Some 2))) as Hquiet
    by (intros cb items [= <-]; reflexivity).
  pose proof (after_reachable (by_id (Some 2)) [Add 0 (item 1 7)]) as Hw.
  assert (getQueue one_queued = [VObj 1]) as Hq by (vm_compute; reflexivity).
  destruct (teardown_flushes_and_is_idempotent (by_id (Some 2)) 0 one_queued
              Hquiet Hw) as (w' & Hw' & Hb & Hq' & _ & Ht & Hone & _ & _ & Hidem).
  split_and!; [done|done|done|].
  exists w'. split_and!; [done|done|done|done| |done].
  by apply (Hone (VObj 1) (λ _, [])).
Defined.

Lemma falsy_options_take_defaults_witness :
  quiet (by_id (Some 5)) ∧
  batchRef one_queued !! key_of (by_id (Some 5)) 1 (item 2 8) = None ∧
  addQueue (set_timeout (Some 0) (by_id (Some 5))) 0 1 (item 2 8) init =
  addQueue (set_timeout (Some 10) (by_id (Some 5))) 0 1 (item 2 8) init ∧
  (∃ w', addQueue (set_threshold (Some 0) (by_id (Some 5))) 0 1 (item 2 8) one_queued
         = Some w' ∧ getQueue w' = []) ∧
  key_of (set_batchKey (Some (PNum 0)) (by_id (Some 5))) 3 (item 1 7) = VNum 3.
Proof.
  assert (quiet (by_id (Some 5))) as Hquiet
    by (intros cb items [= <-]; reflexivity).
  assert (batchRef one_queued !! key_of (by_id (Some 5)) 1 (item 2 8) = None)
    as Hnew by (vm_compute; reflexivity).
  assert (∀ v, props (item 1 7) !! ""%string = Some v → truthy v = false)
    as Hnone by (intros v; vm_compute; discriminate).
  destruct (falsy_options_take_defaults (by_id (Some 5)))
    as (Htimeout & _ & _ & _ & _ & _ & Hzero & Hkey).
  destruct (Htimeout 0%nat init) as (Hadd & _ & _).
  destruct (Hzero 0%nat 1 (item 2 8) one_queued Hquiet Hnew) as (w' & Hw' & Hq & _).
  destruct (Hkey (Some (PNum 0)) 3 (item 1 7)) as (_ & Hclock); [by right; left|].
  split_and!; [done|done|by apply Hadd| |by apply Hclock].
  exists w'. split_and!; done.
Defined.

Lemma same_value_is_queued_once_witness :
  reachable (all_x (Some 3)) init ∧
  batchRef init !! key_of (all_x (Some 3)) 0 (item 1 1) = None ∧
  batchRef init !! key_of (all_x (Some 3)) 1 (item 2 2) = None ∧
  key_of (all_x (Some 3)) 0 (item 1 1) ≠ key_of (all_x (Some 3)) 1 (item 2 2) ∧
  hit (all_x (Some 3)) (item 2 2) = hit (all_x (Some 3)) (item 1 1) ∧
  Z.of_nat (length (set_add (hit (all_x (Some 3)) (item 1 1)) (queueRef init)))
    < THRESHOLD (all_x (Some 3)) ∧
  ∃ w1 w2,
    addQueue (all_x (Some 3)) 0 0 (item 1 1) init = Some w1 ∧
    addQueue (all_x (Some 3)) 0 1 (item 2 2) w1 = Some w2 ∧
    size (getBatch w2) = S (size (getBatch w1)) ∧
    getQueue w2 = getQueue w1 ∧
    occurrences (VStr "x") (getQueue w2) = 1%nat.
Proof.
  assert (reachable (all_x (Some 3)) init) as Hinit by apply rtc_refl.
  assert (batchRef init !! key_of (all_x (Some 3)) 0 (item 1 1) = None) as Hk1
    by (vm_compute; reflexivity).
  assert (batchRef init !! key_of (all_x (Some 3)) 1 (item 2 2) = None) as Hk2
    by (vm_compute; reflexivity).
  assert (key_of (all_x (Some 3)) 0 (item 1 1) ≠
          key_of (all_x (Some 3)) 1 (item 2 2)) as Hne
    by (vm_compute; discriminate).
  assert (hit (all_x (Some 3)) (item 2 2) = hit (all_x (Some 3)) (item 1 1))
    as Hsame by reflexivity.
  assert (Z.of_nat (length (set_add (hit (all_x (Some 3)) (item 1 1))
                                    (queueRef init))) < THRESHOLD (all_x (Some 3)))
    as Hsize by (vm_compute; reflexivity).
  destruct (same_value_is_queued_once (all_x (Some 3)) 0 0 (item 1 1) 1 (item 2 2)
              init Hinit Hk1 Hk2 Hne Hsame Hsize)
    as (w1 & w2 & Hw1 & Hw2 & _ & _ & Hgrow & Hq & _ & Honce & _).
  split_and!; [done|done|done|done|done|done|].
  exists w1, w2. split_and!; done.
Defined.

(** Threshold 3, timeout 1000, keyed by [id]: of [{id: 1}], [{id: 2}],
    [{id: 1}], [{id: 3}] the third is dropped and the fourth flushes the
    three others, in the order they came. *)
Example three_of_four_flushed_by_threshold :
  ∃ w, run (set_timeout (Some 1000) (by_id (Some 3))) 0
         [Add 0 (item 1 1); Add 1 (item 2 2); Add 2 (item 3 1); Add 3 (item 4 3)]
         init = Some w ∧
       trace w =
       [EvEnqueue (VNum 1) (VObj 1); EvSetTimeout 1 1000;
        EvEnqueue (VNum 2) (VObj 2); EvEnqueue (VNum 3) (VObj 4);
        EvClearTimeout 1; EvBatch [VObj 1; VObj 2; VObj 4]] ∧
       getQueue w = [] ∧ timers w = ∅.
Proof. eexists. split; [vm_compute; reflexivity|done]. Qed.

(** Threshold 100, timeout 50, no [batchKey]: one payload, queued under the
    clock reading, is flushed when its timeout elapses. *)
Example one_flushed_by_timer :
  ∃ w, run (set_timeout (Some 50) (by_clock (Some 100))) 0
         [Add 0 (item 1 7); Timer 1] init = Some w ∧
       trace w =
       [EvEnqueue (VNum 0) (VObj 1); EvSetTimeout 1 50; EvTimer 1;
        EvClearTimeout 1; EvBatch [VObj 1]] ∧
       getQueue w = [] ∧ timeoutRef w = None.
Proof. eexists. split; [vm_compute; reflexivity|done]. Qed.

(** A consumer that calls back.  With threshold 1 the payload [{id: 7}] is
    flushed by its own [addQueue]; the consumer answers with [{id: 99}], whose
    [addQueue] finds no handle, arms timer 2 and flushes in turn, before the
    outer flush has emptied the queue: the nested batch holds the first
    payload again.  Without fuel for the nested flush the run does not come
    back. *)
Example consumer_that_calls_back :
  (∃ w, run (calls_back None) 1 [Add 0 (item 1 7)] init = Some w ∧
        trace w =
        [EvEnqueue (VNum 7) (VObj 1); EvSetTimeout 1 10; EvClearTimeout 1;
         EvBatch [VObj 1];
         EvEnqueue (VNum 99) (VObj 9); EvSetTimeout 2 10; EvClearTimeout 2;
         EvBatch [VObj 1; VObj 9]] ∧
        getQueue w = [] ∧ timeoutRef w = None ∧ timers w = ∅) ∧
  run (calls_back None) 0 [Add 0 (item 1 7)] init = None.
Proof. split; [eexists; split; [vm_compute; reflexivity|done]|done]. Qed.

(** * Further properties of [useBatch] *)

(** ** Invariants that need the key to be new *)

Section fresh_keys.

Variable options : BatchOptionsInterface.
Variable P : world → Prop.

Hypothesis P_enqueue :
  ∀ key item w, P w → batchRef w !! key = None → P (_enqueueBatch key item w).
Hypothesis P_schedule :
  ∀ w, P w → timeoutRef w = None → P (_scheduleQueueConsumption options w).
Hypothesis P_clear_scheduler : ∀ w, P w → P (clear_scheduler w).
Hypothesis P_batch :
  ∀ w, P w → timeoutRef w = None → length (queueRef w) ≠ 0%nat →
       P (log (EvBatch (queueRef w)) w).
Hypothesis P_clear_queue : ∀ w, P w → P (clear_queue w).
Hypothesis P_expire : ∀ h w, P w → is_Some (timers w !! h) → P (expire h w).

Lemma addQueue_with_keeps consume :
  (∀ w w', P w → consume w = Some w' → P w') →
  ∀ now data w w',
    P w → addQueue_with options consume now data w = Some w' → P w'.
Proof using P_enqueue P_schedule.
  intros Hconsume now data w w' Hw. unfold addQueue_with.
  case_bool_decide as Hdup; [by intros [= <-]|]. simpl.
  apply eq_None_not_Some in Hdup.
  pose proof (schedule_if_idle_preserves options P P_schedule _
    (P_enqueue (key_of options now data) (hit options data) w Hw Hdup)) as Hw2.
  case_bool_decide; [by apply Hconsume|by intros [= <-]].
Qed.

Lemma consumeQueue_keeps fuel :
  ∀ w w', P w → _consumeQueue options fuel w = Some w' → P w'.
Proof using P_enqueue P_schedule P_clear_scheduler P_batch P_clear_queue.
  induction fuel as [|fuel IH]; intros w w' Hw; rewrite consumeQueue_unfold;
    destruct (notify _ _ _) as [w1|] eqn:Hw1; simpl; try done;
    intros [= <-]; apply P_clear_queue;
    (eapply (notify_preserves options P P_batch);
      [|by apply P_clear_scheduler|apply clear_scheduler_idle|exact Hw1]);
    apply run_calls_preserves, addQueue_with_keeps.
  - done.
  - exact IH.
Qed.

Lemma live_step_keeps w w' : P w → live_step options w w' → P w'.
Proof using All.
  intros Hw [fuel now data Hadd|fuel h Hh Hfire].
  - eapply addQueue_with_keeps; [apply consumeQueue_keeps|done..].
  - destruct Hh as [ms Hms]. unfold timer_fires in Hfire. rewrite Hms in Hfire.
    assert (P (expire h w)) as Hw1 by (apply P_expire; eauto).
    case_bool_decide; [by eapply consumeQueue_keeps|by injection Hfire as <-].
Qed.

Lemma live_steps_keep w w' : P w → rtc (live_step options) w w' → P w'.
Proof using All.
  intros Hw Hsteps. induction Hsteps as [|w w1 w' Hstep _ IH]; [done|].
  apply IH. by eapply live_step_keeps.
Qed.

End fresh_keys.

(** ** What the map keeps *)

Lemma enqueued_keys_app t1 t2 :
  enqueued_keys (t1 ++ t2) = enqueued_keys t1 ++ enqueued_keys t2.
Proof. apply omap_app. Qed.

Lemma grown_from_refl w : grown_from w w.
Proof.
  split; [done|]. exists []. rewrite app_nil_r. split_and!; [done|constructor|].
  intros k Hk. by apply elem_of_nil in Hk.
Qed.

Lemma grown_from_event w0 w w' e :
  batchRef w' = batchRef w → trace w' = trace w ++ [e] →
  enqueued_keys [e] = [] →
  grown_from w0 w → grown_from w0 w'.
Proof.
  intros Hb Ht He (Hsub & t & Htrace & Hnodup & Hkeys). split; [by rewrite Hb|].
  exists (t ++ [e]). rewrite Ht, Htrace, <-app_assoc, enqueued_keys_app, He, app_nil_r.
  split_and!; [done|done|]. intros k Hk. rewrite Hb. by apply Hkeys.
Qed.

Lemma grown_from_enqueue w0 key item w :
  grown_from w0 w → batchRef w !! key = None →
  grown_from w0 (_enqueueBatch key item w).
Proof.
  intros (Hsub & t & Htrace & Hnodup & Hkeys) Hnew. split; simpl.
  - etrans; [exact Hsub|]. by apply insert_subseteq.
  - exists (t ++ [EvEnqueue key item]).
    rewrite Htrace, <-app_assoc, enqueued_keys_app. simpl.
    split_and!; [done| |].
    + apply NoDup_app. split_and!; [done| |apply NoDup_singleton].
      intros k Hk ->%list_elem_of_singleton.
      destruct (Hkeys key Hk) as [_ [v Hv]]. congruence.
    + intros k [Hk|Hk%list_elem_of_singleton]%elem_of_app; [|subst k].
      * destruct (Hkeys k Hk) as [Hnone [v Hv]]. split; [done|].
        destruct (decide (key = k)) as [->|Hne]; [congruence|].
        rewrite lookup_insert_ne by done. eauto.
      * split; [|rewrite lookup_insert_eq; eauto].
        by eapply lookup_weaken_None.
Qed.

Lemma grown_from_live_steps options w w' :
  rtc (live_step options) w w' → grown_from w w'.
Proof.
  intros Hsteps.
  eapply (live_steps_keep options (grown_from w)); [..|apply grown_from_refl|done].
  - intros key item w0. apply grown_from_enqueue.
  - intros w0 Hw0 _.
    refine (grown_from_event w w0 _ _ _ _ _ Hw0); reflexivity.
  - intros w0 Hw0. unfold clear_scheduler.
    destruct (timeoutRef w0); [|done].
    refine (grown_from_event w w0 _ _ _ _ _ Hw0); reflexivity.
  - intros w0 Hw0 _ _.
    refine (grown_from_event w w0 _ _ _ _ _ Hw0); reflexivity.
  - done.
  - intros h w0 Hw0 _.
    refine (grown_from_event w w0 _ _ _ _ _ Hw0); reflexivity.
Qed.

(** X1. Between two teardowns [batchRef] only grows, whatever flushes
    happen and whatever the consumer does: no call of [addQueue] and no
    timeout removes or overwrites an entry, and the keys enqueued on the way
    are pairwise distinct keys that were not in the map before.  A key is
    thus accepted at most once per mount. *)
Theorem seen_only_grows_until_teardown options w w' :
  rtc (live_step options) w w' →
  getBatch w ⊆ getBatch w' ∧
  ∃ t, trace w' = trace w ++ t ∧
       NoDup (enqueued_keys t) ∧
       ∀ k, k ∈ enqueued_keys t →
            getBatch w !! k = None ∧ is_Some (getBatch w' !! k).
Proof. apply grown_from_live_steps. Qed.

(** ** What a batch looks like *)

Lemma batches_well_formed_reachable options w :
  reachable options w → batches_well_formed w.
Proof.
  intros Hw.
  eapply (steps_preserve options batches_well_formed); [..|exact Hw].
  - intros key item w0 [Hq Hb]. split; simpl; [by apply set_add_NoDup|].
    by rewrite batches_app, app_nil_r.
  - intros w0 [Hq Hb] _. split; simpl; [done|].
    by rewrite batches_app, app_nil_r.
  - intros w0 [Hq Hb]. unfold clear_scheduler.
    destruct (timeoutRef w0); [|done]. split; simpl; [done|].
    by rewrite batches_app, app_nil_r.
  - intros w0 [Hq Hb] _ Hne. split; simpl; [done|].
    rewrite batches_app. simpl.
    intros b [Hin|Hin%list_elem_of_singleton]%elem_of_app;
      [by apply Hb|subst b].
    split; [|done]. intros Hnil. by rewrite Hnil in Hne.
  - intros w0 [Hq Hb]. split; simpl; [constructor|done].
  - intros w0 [Hq Hb]. by split.
  - intros h w0 [Hq Hb] _. split; simpl; [done|].
    by rewrite batches_app, app_nil_r.
  - split; simpl; [constructor|]. intros b Hb. by apply elem_of_nil in Hb.
Qed.

(** X2. [onBatchCallback] is never called with an empty array, and never
    with an array that holds a value twice: in every run, with any consumer,
    each batch is a non-empty list without duplicates, as is what [getQueue]
    returns (without duplicates). *)
Theorem every_batch_is_a_nonempty_set options w :
  reachable options w →
  NoDup (getQueue w) ∧
  ∀ b, b ∈ batches (trace w) → b ≠ [] ∧ NoDup b.
Proof. apply batches_well_formed_reachable. Qed.

(** ** The size of a batch *)

Lemma set_add_length item q : (length (set_add item q) ≤ S (length q))%nat.
Proof.
  unfold set_add. case_bool_decide; [lia|]. rewrite length_app. simpl. lia.
Qed.

Lemma within_threshold_event options w w' e :
  queueRef w' = queueRef w → trace w' = trace w ++ [e] →
  batches [e] = [] →
  within_threshold options w → within_threshold options w'.
Proof.
  intros Hq Ht He [Hsize Hb]. split; [by rewrite Hq|].
  by rewrite Ht, batches_app, He, app_nil_r.
Qed.

Lemma within_threshold_flush options w :
  Z.of_nat (length (queueRef w)) <= Z.max 1 (THRESHOLD options) →
  (∀ b, b ∈ batches (trace w) →
        Z.of_nat (length b) <= Z.max 1 (THRESHOLD options)) →
  within_threshold options (flush options w).
Proof.
  intros Hsize Hb. split; [by left|].
  rewrite flush_batches. intros b [Hin|Hin]%elem_of_app; [by apply Hb|].
  destruct (onBatchCallback options); [|by apply elem_of_nil in Hin].
  case_bool_decide; [|by apply elem_of_nil in Hin].
  apply list_elem_of_singleton in Hin. by subst b.
Qed.

Lemma within_threshold_step options w w' :
  quiet options → within_threshold options w → step options w w' →
  within_threshold options w'.
Proof.
  intros Hquiet [Hsize Hb] [fuel now data Hadd|fuel h Hh Hfire|fuel Hclean].
  - rewrite addQueue_quiet in Hadd by done. injection Hadd as <-.
    case_bool_decide; [done|]. simpl.
    set (w1 := _enqueueBatch (key_of options now data) (hit options data) w).
    pose proof (set_add_length (hit options data) (queueRef w)) as Hlen.
    assert (∀ b, b ∈ batches (trace (schedule_if_idle options w1)) →
                 Z.of_nat (length b) <= Z.max 1 (THRESHOLD options)) as Hb1.
    { rewrite schedule_if_idle_batches. subst w1.
      by rewrite enqueueBatch_batches. }
    case_bool_decide as Hfull.
    + apply within_threshold_flush; [|done].
      rewrite schedule_if_idle_queueRef. subst w1. simpl.
      destruct Hsize as [Hnil%(f_equal length)|Hlt]; simpl in *; lia.
    + split; [right; lia|done].
  - rewrite timer_fires_quiet in Hfire by done. injection Hfire as <-.
    assert (∀ b, b ∈ batches (trace (expire h w)) →
                 Z.of_nat (length b) <= Z.max 1 (THRESHOLD options)) as Hb1
      by (by rewrite expire_batches).
    case_bool_decide.
    + apply within_threshold_flush; [|done]. simpl.
      destruct Hsize as [Hnil|Hlt]; [rewrite Hnil; simpl|]; lia.
    + by split.
  - rewrite cleanupQueue_quiet in Hclean by done. injection Hclean as <-.
    assert (within_threshold options (flush options w)) as [_ Hb1].
    { apply within_threshold_flush; [|done].
      destruct Hsize as [Hnil|Hlt]; [rewrite Hnil; simpl|]; lia. }
    by split; [left|].
Qed.

(** X3. With a consumer that does not call back, the threshold is the
    largest batch ("the maximum number of item to include in one batch"):
    between two calls the queue holds fewer than [THRESHOLD] items, and no
    batch handed over, by threshold, timer or teardown, holds more than
    [THRESHOLD] items (more than one, for a threshold below one). *)
Theorem no_batch_exceeds_threshold options w :
  quiet options → reachable options w →
  (getQueue w = [] ∨ Z.of_nat (length (getQueue w)) < THRESHOLD options) ∧
  ∀ b, b ∈ batches (trace w) →
       Z.of_nat (length b) <= Z.max 1 (THRESHOLD options).
Proof.
  intros Hquiet. revert w. apply rtc_ind_r.
  - split; [by left|]. intros b Hb. by apply elem_of_nil in Hb.
  - intros w1 w2 _ Hstep IH. by eapply within_threshold_step.
Qed.

(** ** A consumer that queues from inside the callback *)

Lemma reenter_one options fuel now data w :
  batchRef w !! key_of options now data = None →
  timeoutRef w = None →
  Z.of_nat (length (set_add (hit options data) (queueRef w))) < THRESHOLD options →
  reenter options fuel [(now, data)] w =
  Some (_scheduleQueueConsumption options
          (_enqueueBatch (key_of options now data) (hit options data) w)).
Proof.
  intros Hnew Href Hsize. unfold reenter. simpl. unfold addQueue_with.
  rewrite bool_decide_eq_false_2 by (rewrite Hnew; by intros [? ?]).
  unfold schedule_if_idle. simpl. rewrite Href.
  rewrite bool_decide_eq_false_2; [done|]. simpl. lia.
Qed.

(** X4. A payload that [onBatchCallback] itself queues, below the
    threshold, is never handed over: the flush that called the consumer
    empties the queue afterwards, while the key stays in [batchRef], so the
    same payload is dropped when it is submitted again.  The timer the
    nested call armed finds the queue empty and leaves its id in
    [timeoutRef]; the next accepted payload is then queued with no timer
    pending. *)
Theorem payload_queued_by_consumer_is_lost options fuel w cb now data :
  timers_tracked w →
  onBatchCallback options = Some cb →
  length (queueRef w) ≠ 0%nat →
  cb (queueRef w) = [(now, data)] →
  batchRef w !! key_of options now data = None →
  Z.of_nat (length (set_add (hit options data) (queueRef w))) < THRESHOLD options →
  ∃ w' w'',
    _consumeQueue options fuel w = Some w' ∧
    batches (trace w') = batches (trace w) ++ [queueRef w] ∧
    getQueue w' = [] ∧
    getBatch w' = <[key_of options now data := hit options data]> (getBatch w) ∧
    addQueue options fuel now data w' = Some w' ∧
    timeoutRef w' = Some (next_timer w) ∧
    timers w' = {[ next_timer w := TIMEOUT options ]} ∧
    timer_fires options fuel (next_timer w) w' = Some w'' ∧
    batches (trace w'') = batches (trace w') ∧
    timeoutRef w'' = Some (next_timer w) ∧ timers w'' = ∅ ∧
    ∀ now2 data2,
      batchRef w'' !! key_of options now2 data2 = None →
      1 < THRESHOLD options →
      ∃ w3, addQueue options fuel now2 data2 w'' = Some w3 ∧
            getQueue w3 = [hit options data2] ∧ timers w3 = ∅.
Proof.
  intros Htracked Hcb Hq Hanswer Hnew Hsize.
  set (w0 := log (EvBatch (queueRef w)) (clear_scheduler w)).
  set (w1 := _scheduleQueueConsumption options
               (_enqueueBatch (key_of options now data) (hit options data) w0)).
  assert (timers (clear_scheduler w) = ∅) as Hnone
    by (by apply clear_scheduler_no_timer).
  assert (next_timer (clear_scheduler w) = next_timer w) as Hnext
    by (unfold clear_scheduler; by destruct (timeoutRef w)).
  assert (_consumeQueue options fuel w = Some (clear_queue w1)) as Hflush.
  { rewrite consumeQueue_unfold. unfold notify.
    rewrite Hcb, clear_scheduler_queueRef, bool_decide_eq_true_2, Hanswer by done.
    fold w0. rewrite reenter_one; [done|..].
    - subst w0. simpl. by rewrite clear_scheduler_batchRef.
    - apply clear_scheduler_idle.
    - subst w0. simpl. by rewrite clear_scheduler_queueRef. }
  assert (timers (clear_queue w1) = {[ next_timer w := TIMEOUT options ]}) as Htimers.
  { subst w1 w0. simpl. by rewrite Hnone, Hnext, insert_empty. }
  exists (clear_queue w1), (expire (next_timer w) (clear_queue w1)).
  unfold getQueue, getBatch. split_and!.
  - done.
  - subst w1 w0. simpl.
    rewrite !batches_app, clear_scheduler_trace, batches_app. simpl.
    rewrite <-!app_assoc. f_equal. by destruct (timeoutRef w).
  - done.
  - subst w1 w0. simpl. by rewrite clear_scheduler_batchRef.
  - apply addQueue_duplicate. subst w1 w0. simpl.
    rewrite lookup_insert_eq. eauto.
  - subst w1 w0. simpl. by rewrite Hnext.
  - done.
  - unfold timer_fires. rewrite Htimers, lookup_singleton_eq. simpl. done.
  - simpl. by rewrite batches_app, app_nil_r.
  - subst w1 w0. simpl. by rewrite Hnext.
  - subst w1 w0. simpl.
    rewrite Hnone, Hnext, insert_empty. apply delete_singleton_eq.
  - intros now2 data2 Hnew2 Hthreshold.
    rewrite addQueue_below_threshold; [|done|simpl; lia].
    eexists. split; [done|]. unfold schedule_if_idle. subst w1 w0. simpl.
    split; [done|].
    rewrite Hnone, Hnext, insert_empty. apply delete_singleton_eq.
Qed.

(** * Properties of [useIdleCallback] *)

Lemma delete_empty_size {A} (h : positive) (m : gmap positive A) :
  delete h m = ∅ → (size m ≤ 1)%nat.
Proof.
  intros Hrest. pose proof (map_size_delete h m) as Hsize.
  rewrite Hrest, map_size_empty in Hsize.
  destruct (m !! h); simpl in Hsize; lia.
Qed.

Lemma delete_empty_lookup {A} (h h' : positive) (m : gmap positive A) :
  delete h m = ∅ → is_Some (m !! h') → h' = h.
Proof.
  intros Hrest [x Hx]. destruct (decide (h' = h)) as [|Hne]; [done|].
  assert (delete h m !! h' = Some x) as Hin by (by rewrite lookup_delete_ne).
  rewrite Hrest in Hin. by apply lookup_empty_Some in Hin.
Qed.

Lemma idle_tracked_pending m : Idle.tracked m → (Idle.pending (Idle.env m) ≤ 1)%nat.
Proof.
  unfold Idle.tracked, Idle.pending.
  destruct (Idle.current m) as [[h|h]|]; intros [Ht Hi].
  - rewrite Hi, map_size_empty. apply delete_empty_size in Ht. lia.
  - rewrite Ht, map_size_empty. apply delete_empty_size in Hi. lia.
  - rewrite Ht, Hi, !map_size_empty. lia.
Qed.

Lemma idle_tracked_cleaned m :
  Idle.tracked m →
  Idle.timeouts (Idle.cleaned m) = ∅ ∧ Idle.idle_requests (Idle.cleaned m) = ∅ ∧
  Idle.calls (Idle.cleaned m) = Idle.calls (Idle.env m).
Proof.
  unfold Idle.tracked, Idle.cleaned.
  by destruct (Idle.current m) as [[h|h]|]; intros [Ht Hi].
Qed.

Lemma idle_tracked_unmount m : Idle.tracked m → Idle.tracked (Idle.unmount m).
Proof.
  intros (Ht & Hi & _)%idle_tracked_cleaned. by split.
Qed.

Lemma idle_tracked_render p m : Idle.tracked m → Idle.tracked (Idle.render p m).
Proof.
  intros (Ht & Hi & _)%idle_tracked_cleaned.
  unfold Idle.tracked, Idle.render, Idle.effect. simpl.
  destruct (Idle.SHOULD_SKIP p); simpl; [done|].
  destruct (Idle.has_requestIdleCallback (Idle.cleaned m)); simpl.
  - split; [done|]. by rewrite Hi, delete_insert_eq, delete_empty.
  - split; [|done]. by rewrite Ht, delete_insert_eq, delete_empty.
Qed.

Lemma idle_tracked_timeout h m :
  Idle.tracked m → Idle.tracked (Idle.timeout_elapses h m).
Proof.
  intros Hm. unfold Idle.timeout_elapses.
  destruct (Idle.timeouts (Idle.env m) !! h) as [ms|] eqn:Hh; [|done].
  unfold Idle.tracked in *. simpl.
  destruct (Idle.current m) as [[h'|h']|]; destruct Hm as [Ht Hi].
  - split; [|done].
    rewrite (delete_empty_lookup h' h _ Ht) by eauto.
    by rewrite delete_delete_eq.
  - rewrite Ht in Hh. by apply lookup_empty_Some in Hh.
  - rewrite Ht in Hh. by apply lookup_empty_Some in Hh.
Qed.

Lemma idle_tracked_idle_period h m :
  Idle.tracked m → Idle.tracked (Idle.idle_period h m).
Proof.
  intros Hm. unfold Idle.idle_period.
  destruct (Idle.idle_requests (Idle.env m) !! h) as [o|] eqn:Hh; [|done].
  unfold Idle.tracked in *. simpl.
  destruct (Idle.current m) as [[h'|h']|]; destruct Hm as [Ht Hi].
  - rewrite Hi in Hh. by apply lookup_empty_Some in Hh.
  - split; [done|].
    rewrite (delete_empty_lookup h' h _ Hi) by eauto.
    by rewrite delete_delete_eq.
  - rewrite Hi in Hh. by apply lookup_empty_Some in Hh.
Qed.

Lemma idle_tracked_run ops m : Idle.tracked m → Idle.tracked (Idle.run ops m).
Proof.
  revert m. induction ops as [|o ops IH]; intros m Hm; [done|].
  apply IH. destruct o; simpl.
  - by apply idle_tracked_render.
  - by apply idle_tracked_unmount.
  - by apply idle_tracked_timeout.
  - by apply idle_tracked_idle_period.
Qed.

Lemma idle_tracked_initial supported : Idle.tracked (Idle.initial supported).
Proof. by split. Qed.

Lemma idle_nothing_pending m :
  Idle.tracked m → Idle.current m = None → Idle.pending (Idle.env m) = 0%nat.
Proof.
  unfold Idle.tracked, Idle.pending. intros Hm Hnone. rewrite Hnone in Hm.
  destruct Hm as [-> ->]. by rewrite !map_size_empty.
Qed.

(** X5. However often the component re-renders, at most one request (a
    timeout or an idle request, never both) is pending, and none is left
    pending by an unmount or by a render with [shouldSkip]. *)
Theorem idle_callback_at_most_one_pending supported ops :
  (Idle.pending (Idle.env (Idle.run ops (Idle.initial supported))) ≤ 1)%nat ∧
  Idle.pending
    (Idle.env (Idle.unmount (Idle.run ops (Idle.initial supported)))) = 0%nat ∧
  ∀ p, Idle.SHOULD_SKIP p = true →
       Idle.pending
         (Idle.env (Idle.render p (Idle.run ops (Idle.initial supported)))) = 0%nat.
Proof.
  pose proof (idle_tracked_run ops _ (idle_tracked_initial supported)) as Hm.
  split_and!.
  - by apply idle_tracked_pending.
  - apply idle_nothing_pending; [by apply idle_tracked_unmount|done].
  - intros p Hskip. apply idle_nothing_pending; [by apply idle_tracked_render|].
    unfold Idle.render, Idle.effect. simpl. by rewrite Hskip.
Qed.

Lemma idle_browser_only_idle later m :
  Idle.tracked m → Idle.current m = None →
  Idle.browser_only later → Idle.run later m = m.
Proof.
  intros Hm Hnone Hlater. induction Hlater as [|o later Ho _ IH]; [done|].
  unfold Idle.tracked in Hm. rewrite Hnone in Hm. destruct Hm as [Ht Hi].
  destruct o as [| |h|h]; try done; simpl.
  - unfold Idle.timeout_elapses. rewrite Ht, lookup_empty. apply IH.
  - unfold Idle.idle_period. rewrite Hi, lookup_empty. apply IH.
Qed.

(** X6. After an unmount the callback never runs, whatever timeouts
    elapse and idle periods come: the component and the browser stay as the
    unmount left them. *)
Theorem idle_callback_not_called_after_unmount supported ops later :
  Idle.browser_only later →
  Idle.run later (Idle.unmount (Idle.run ops (Idle.initial supported))) =
  Idle.unmount (Idle.run ops (Idle.initial supported)) ∧
  Idle.calls (Idle.env
    (Idle.run later (Idle.unmount (Idle.run ops (Idle.initial supported))))) =
  Idle.calls (Idle.env (Idle.run ops (Idle.initial supported))).
Proof.
  intros Hlater.
  pose proof (idle_tracked_run ops _ (idle_tracked_initial supported)) as Hm.
  rewrite idle_browser_only_idle; [|by apply idle_tracked_unmount|done|done].
  split; [done|]. simpl. by apply idle_tracked_cleaned.
Qed.

Lemma idle_run_snoc ops o m :
  Idle.run (ops ++ [o]) m = Idle.do_op o (Idle.run ops m).
Proof. unfold Idle.run. by rewrite foldl_app. Qed.

Lemma idle_budget ops supported :
  (Idle.calls (Idle.env (Idle.run ops (Idle.initial supported))) +
   Idle.pending (Idle.env (Idle.run ops (Idle.initial supported)))
   ≤ Idle.requests ops)%nat.
Proof.
  induction ops as [|o ops IH] using rev_ind.
  - simpl. unfold Idle.pending. simpl. rewrite !map_size_empty. lia.
  - rewrite idle_run_snoc. unfold Idle.requests in *.
    rewrite sum_list_with_app. simpl.
    pose proof (idle_tracked_run ops _ (idle_tracked_initial supported)) as Hm.
    set (m := Idle.run ops (Idle.initial supported)) in *.
    destruct o as [p| |h|h]; simpl.
    + pose proof (idle_tracked_cleaned m Hm) as (Ht & Hi & Hc).
      unfold Idle.render, Idle.effect, Idle.pending. simpl.
      destruct (Idle.SHOULD_SKIP p); simpl.
      * rewrite Ht, Hi, Hc, !map_size_empty. lia.
      * destruct (Idle.has_requestIdleCallback (Idle.cleaned m)); simpl;
          rewrite Ht, Hi, Hc, insert_empty, map_size_singleton, map_size_empty; lia.
    + pose proof (idle_tracked_cleaned m Hm) as (Ht & Hi & Hc).
      unfold Idle.pending. rewrite Ht, Hi, Hc, !map_size_empty. lia.
    + unfold Idle.timeout_elapses.
      destruct (Idle.timeouts (Idle.env m) !! h) as [ms|] eqn:Hh; [|lia].
      unfold Idle.pending in *. simpl.
      rewrite map_size_delete, Hh. simpl.
      assert (size (Idle.timeouts (Idle.env m)) ≠ 0%nat) as Hne.
      { intros Hz%map_size_empty_inv. rewrite Hz in Hh.
        by apply lookup_empty_Some in Hh. }
      lia.
    + unfold Idle.idle_period.
      destruct (Idle.idle_requests (Idle.env m) !! h) as [o|] eqn:Hh; [|lia].
      unfold Idle.pending in *. simpl.
      rewrite map_size_delete, Hh. simpl.
      assert (size (Idle.idle_requests (Idle.env m)) ≠ 0%nat) as Hne.
      { intros Hz%map_size_empty_inv. rewrite Hz in Hh.
        by apply lookup_empty_Some in Hh. }
      lia.
Qed.

(** X7. The callback runs at most once for each run of the effect: in
    every script, the calls made so far and the request still pending
    together do not outnumber the renders that were not skipped. *)
Theorem idle_callback_once_per_request supported ops :
  (Idle.calls (Idle.env (Idle.run ops (Idle.initial supported))) +
   Idle.pending (Idle.env (Idle.run ops (Idle.initial supported)))
   ≤ Idle.requests ops)%nat.
Proof. apply idle_budget. Qed.

(** * Properties of [usePageType] *)

Lemma page_run_snoc dom ops o s :
  Page.run dom (ops ++ [o]) s = Page.do_op dom o (Page.run dom ops s).
Proof. unfold Page.run. by rewrite foldl_app. Qed.

Lemma page_reports_name dom p :
  Page.reports dom p = true →
  Page.normalizePageType (default ""%string (Page.pageType p))
    (default ""%string (Page.pathRoute p)) (default ""%string (Page.path p)) =
  Page.slice_1 (default ""%string (Page.pageType p)).
Proof.
  unfold Page.reports, Page.normalizePageType.
  intros [_ Htype]%andb_true_iff. by rewrite Htype.
Qed.

Lemma page_reported_by_more dom ops o name :
  Page.reported_by dom ops name → Page.reported_by dom (ops ++ [o]) name.
Proof.
  intros (p & Hin & Hrep & Hname). exists p. split_and!; [|done|done].
  apply elem_of_app. by left.
Qed.

Lemma page_reported_by_last dom ops p :
  Page.reports dom p = true →
  Page.reported_by dom (ops ++ [Page.Effect p])
    (Page.slice_1 (default ""%string (Page.pageType p))).
Proof.
  intros Hrep. exists p. split_and!; [|done|done].
  apply elem_of_app. right. by apply list_elem_of_singleton.
Qed.

Lemma page_names_reported dom ops host layer relic :
  let s := Page.run dom ops (Page.loaded host layer relic) in
  (∀ name, name ∈ Page.page_views s → Page.reported_by dom ops name) ∧
  (∀ h ms name, Page.timers s !! h = Some (ms, name) →
                Page.reported_by dom ops name) ∧
  (∀ name, Page.__PAGE_TYPE__ s = Some name → Page.reported_by dom ops name).
Proof.
  induction ops as [|o ops IH] using rev_ind; simpl.
  - split_and!; [intros name Hin; by apply elem_of_nil in Hin| |done].
    intros h ms name Hh. by apply lookup_empty_Some in Hh.
  - rewrite page_run_snoc. simpl in IH. destruct IH as (Hviews & Htimers & Hglobal).
    set (s := Page.run dom ops (Page.loaded host layer relic)) in *.
    destruct o as [p|h]; simpl.
    + unfold Page.effect. destruct (Page.reports dom p) eqn:Hrep; simpl.
      * rewrite (page_reports_name dom p Hrep). split_and!.
        -- intros name Hin. by apply page_reported_by_more, Hviews.
        -- intros h ms name [[_ [= _ <-]]|[_ Hold]]%lookup_insert_Some.
           ++ by apply page_reported_by_last.
           ++ apply page_reported_by_more.
              destruct (Page.timeout s) as [old|]; [|by eapply Htimers].
              apply lookup_delete_Some in Hold as [_ Hold]. by eapply Htimers.
        -- intros name [= <-]. by apply page_reported_by_last.
      * split_and!; intros; by eapply page_reported_by_more; eauto.
    + unfold Page.timer_elapses.
      destruct (Page.timers s !! h) as [[ms name']|] eqn:Hh; simpl.
      * split_and!.
        -- intros name [Hin|Hin%list_elem_of_singleton]%elem_of_app.
           ++ by apply page_reported_by_more, Hviews.
           ++ subst name. by eapply page_reported_by_more, Htimers.
        -- intros h' ms' name [_ Hold]%lookup_delete_Some.
           by eapply page_reported_by_more, Htimers.
        -- intros name Hg. by apply page_reported_by_more, Hglobal.
      * split_and!; intros; by eapply page_reported_by_more; eauto.
Qed.

(** X8. Whatever the props, the name handed to [setPageView] and written
    to [window.__PAGE_TYPE__] is the [pageType] of an effect that had the
    DOM, a non-empty [pathRoute] and a non-empty [pageType], without its
    first character: an effect without [pageType] reports nothing, and
    [pathRoute] and [path] are never reported in its place. *)
Theorem page_view_is_page_type_sliced dom ops host layer relic name :
  name ∈ Page.page_views (Page.run dom ops (Page.loaded host layer relic)) ∨
  Page.__PAGE_TYPE__ (Page.run dom ops (Page.loaded host layer relic)) = Some name →
  ∃ p, Page.Effect p ∈ ops ∧
       dom = true ∧
       default ""%string (Page.pathRoute p) ≠ ""%string ∧
       default ""%string (Page.pageType p) ≠ ""%string ∧
       name = Page.slice_1 (default ""%string (Page.pageType p)).
Proof.
  intros Hname.
  destruct (page_names_reported dom ops host layer relic) as (Hviews & _ & Hglobal).
  assert (Page.reported_by dom ops name) as (p & Hin & Hrep & Heq)
    by (destruct Hname; eauto).
  exists p. unfold Page.reports, Page.truthy in Hrep.
  apply andb_true_iff in Hrep as [[Hdom Hroute]%andb_true_iff Htype].
  apply negb_true_iff, bool_decide_eq_false in Hroute, Htype.
  by split_and!.
Qed.

Lemma page_tracked_effect dom p s : Page.tracked s → Page.tracked (Page.effect dom p s).
Proof.
  intros Hs. unfold Page.effect. destruct (Page.reports dom p); [|done].
  unfold Page.tracked in *. simpl.
  destruct (Page.timeout s); rewrite Hs; by rewrite delete_insert_eq, delete_empty.
Qed.

Lemma page_tracked_timer h s : Page.tracked s → Page.tracked (Page.timer_elapses h s).
Proof.
  intros Hs. unfold Page.timer_elapses.
  destruct (Page.timers s !! h) as [[ms name]|] eqn:Hh; [|done].
  unfold Page.tracked in *. simpl. destruct (Page.timeout s) as [h'|].
  - rewrite (delete_empty_lookup h' h _ Hs) by eauto. by rewrite delete_delete_eq.
  - rewrite Hs in Hh. by apply lookup_empty_Some in Hh.
Qed.

Lemma page_tracked_run dom ops s : Page.tracked s → Page.tracked (Page.run dom ops s).
Proof.
  revert s. induction ops as [|o ops IH]; intros s Hs; [done|].
  apply IH. destruct o; [by apply page_tracked_effect|by apply page_tracked_timer].
Qed.

Lemma page_effects_keep_views dom ps s :
  Page.page_views (Page.run dom (Page.Effect <$> ps) s) = Page.page_views s.
Proof.
  revert s. induction ps as [|p ps IH]; intros s; [done|].
  simpl. rewrite IH. unfold Page.effect. by destruct (Page.reports dom p).
Qed.

Lemma page_timer_single h ms name s :
  Page.timers s = {[ h := (ms, name) ]} →
  Page.page_views (Page.timer_elapses h s) = Page.page_views s ++ [name] ∧
  Page.timers (Page.timer_elapses h s) = ∅.
Proof.
  intros Hs. unfold Page.timer_elapses. rewrite Hs, lookup_singleton_eq. simpl.
  split; [done|]. apply delete_singleton_eq.
Qed.

(** X9. The page view is debounced across all components: at most one
    timeout of the hook is pending, and after a burst of effects that ends
    with one that reports, the only pending timeout is the one of that last
    effect; when it elapses [setPageView] is called once, with the last page
    type, and nothing is left pending. *)
Theorem page_view_is_debounced dom ops ps p host layer relic :
  Page.reports dom p = true →
  (size (Page.timers (Page.run dom ops (Page.loaded host layer relic))) ≤ 1)%nat ∧
  ∃ h,
    Page.timeout
      (Page.run dom (Page.Effect <$> (ps ++ [p]))
         (Page.run dom ops (Page.loaded host layer relic))) = Some h ∧
    Page.timers
      (Page.run dom (Page.Effect <$> (ps ++ [p]))
         (Page.run dom ops (Page.loaded host layer relic))) =
    {[ h := (300, Page.slice_1 (default ""%string (Page.pageType p))) ]} ∧
    Page.page_views
      (Page.timer_elapses h
         (Page.run dom (Page.Effect <$> (ps ++ [p]))
            (Page.run dom ops (Page.loaded host layer relic)))) =
    Page.page_views (Page.run dom ops (Page.loaded host layer relic))
      ++ [Page.slice_1 (default ""%string (Page.pageType p))] ∧
    Page.timers
      (Page.timer_elapses h
         (Page.run dom (Page.Effect <$> (ps ++ [p]))
            (Page.run dom ops (Page.loaded host layer relic)))) = ∅.
Proof.
  intros Hrep.
  assert (Page.tracked (Page.loaded host layer relic)) as Hloaded by done.
  pose proof (page_tracked_run dom ops _ Hloaded) as Hs0.
  set (s0 := Page.run dom ops (Page.loaded host layer relic)) in *.
  split.
  { unfold Page.tracked in Hs0. destruct (Page.timeout s0).
    - by eapply delete_empty_size.
    - rewrite Hs0, map_size_empty. lia. }
  rewrite fmap_app. simpl.
  rewrite page_run_snoc. simpl.
  pose proof (page_tracked_run dom (Page.Effect <$> ps) _ Hs0) as Hs1.
  pose proof (page_effects_keep_views dom ps s0) as Hviews.
  set (s1 := Page.run dom (Page.Effect <$> ps) s0) in *.
  assert (Page.timers (Page.effect dom p s1) =
          {[ Page.next_timer s1 :=
               (300, Page.slice_1 (default ""%string (Page.pageType p))) ]})
    as Htimers.
  { unfold Page.effect. rewrite Hrep. simpl.
    rewrite (page_reports_name dom p Hrep).
    unfold Page.tracked in Hs1.
    destruct (Page.timeout s1); by rewrite Hs1, insert_empty. }
  destruct (page_timer_single _ _ _ _ Htimers) as [Hview Hnone].
  exists (Page.next_timer s1). split_and!.
  - unfold Page.effect. by rewrite Hrep.
  - done.
  - rewrite Hview, <-Hviews. f_equal.
    unfold Page.effect. by rewrite Hrep.
  - done.
Qed.

Lemma page_layer_invariant dom ops host relic :
  ∃ pushed,
    Page.dataLayer (Page.run dom ops (Page.loaded host (Some []) relic))
      = Some pushed ∧
    Page.__PAGE_TYPE__ (Page.run dom ops (Page.loaded host (Some []) relic))
      = Page.slice_1 <$> last pushed ∧
    Forall (λ raw, raw ≠ ""%string) pushed.
Proof.
  induction ops as [|o ops IH] using rev_ind.
  - exists []. by split_and!.
  - rewrite page_run_snoc. destruct IH as (pushed & Hlayer & Hglobal & Hraw).
    set (s := Page.run dom ops (Page.loaded host (Some []) relic)) in *.
    destruct o as [p|h]; simpl.
    + unfold Page.effect. destruct (Page.reports dom p) eqn:Hrep; [|by exists pushed].
      exists (pushed ++ [default ""%string (Page.pageType p)]). simpl.
      rewrite Hlayer, last_snoc, (page_reports_name dom p Hrep). split_and!; try done.
      apply Forall_app. split; [done|]. apply Forall_singleton.
      unfold Page.reports, Page.truthy in Hrep.
      apply andb_true_iff in Hrep as [_ Htype].
      by apply negb_true_iff, bool_decide_eq_false in Htype.
    + unfold Page.timer_elapses.
      destruct (Page.timers s !! h) as [[ms name]|]; by exists pushed.
Qed.

(** X10. [dataLayer] and the other globals are told different names: on a
    page whose [dataLayer] starts empty, [window.__PAGE_TYPE__] always is the
    last [page_type] pushed to [dataLayer] without its first character, and
    no empty [page_type] is ever pushed. *)
Theorem data_layer_keeps_first_character dom ops host relic :
  ∃ pushed,
    Page.dataLayer (Page.run dom ops (Page.loaded host (Some []) relic))
      = Some pushed ∧
    Page.__PAGE_TYPE__ (Page.run dom ops (Page.loaded host (Some []) relic))
      = Page.slice_1 <$> last pushed ∧
    Forall (λ raw, raw ≠ ""%string) pushed.
Proof. apply page_layer_invariant. Qed.

(** * Properties of [useScrollRestoration] *)

Lemma scroll_at_rest_happen e s : Scroll.at_rest s → Scroll.happen e s = s.
Proof.
  intros [Hf Ht]. destruct e as [h|h]; simpl.
  - unfold Scroll.frame_runs. by rewrite Hf, lookup_empty.
  - unfold Scroll.timeout_elapses. by rewrite Ht, lookup_empty.
Qed.

Lemma scroll_at_rest_run es s : Scroll.at_rest s → Scroll.run es s = s.
Proof.
  intros Hs. induction es as [|e es IH]; [done|].
  simpl. rewrite scroll_at_rest_happen by done. apply IH.
Qed.

Lemma scroll_request_served p e s :
  Scroll.at_rest s →
  Scroll.scrolled
    (Scroll.run [Scroll.Frame (Scroll.next_frame s);
                 Scroll.Timeout (Scroll.next_timeout s)]
       (Scroll.scrollTo p e s)) = Scroll.scrolled s ++ [(p, e)] ∧
  Scroll.at_rest
    (Scroll.run [Scroll.Frame (Scroll.next_frame s);
                 Scroll.Timeout (Scroll.next_timeout s)]
       (Scroll.scrollTo p e s)) ∧
  Scroll.timeoutId
    (Scroll.run [Scroll.Frame (Scroll.next_frame s);
                 Scroll.Timeout (Scroll.next_timeout s)]
       (Scroll.scrollTo p e s)) = None.
Proof.
  destruct s as [el tid rid fr tm nf nt sc li]. intros [Hf Ht]. simpl in *. subst.
  unfold Scroll.run, Scroll.scrollTo. simpl.
  unfold Scroll.frame_runs. simpl. rewrite lookup_insert_eq. simpl.
  unfold Scroll.timeout_elapses. simpl. rewrite lookup_insert_eq. simpl.
  unfold Scroll.cancelTimeout, Scroll.at_rest. simpl.
  rewrite !delete_insert_eq, !delete_empty. by split_and!.
Qed.

(** X11. A request to scroll made while nothing is pending is served once:
    after the next frame and the timeout it sets, the window (or the
    element) has been scrolled to the position asked for, once, and nothing
    is left pending.  [handleHistoryChange] makes such a request for a [POP]
    with a stored position other than 0 while no element is attached, and
    none for any other action or for position 0; the layout effect makes it
    for the attached element. *)
Theorem scroll_request_is_served_once context loc identifier node p s :
  Scroll.at_rest s →
  p ≠ 0 →
  (∀ e,
     Scroll.scrolled
       (Scroll.run [Scroll.Frame (Scroll.next_frame s);
                    Scroll.Timeout (Scroll.next_timeout s)]
          (Scroll.scrollTo p e s)) = Scroll.scrolled s ++ [(p, e)] ∧
     Scroll.at_rest
       (Scroll.run [Scroll.Frame (Scroll.next_frame s);
                    Scroll.Timeout (Scroll.next_timeout s)]
          (Scroll.scrollTo p e s))) ∧
  (Scroll.elementRef s = None →
   Scroll.read context loc (default ""%string (Scroll.key loc)) = p →
   Scroll.handleHistoryChange true (Some context) loc Scroll.POP s =
   Scroll.scrollTo p None s) ∧
  (∀ action,
     action ≠ Scroll.POP ∨
     Scroll.read context loc (default ""%string (Scroll.key loc)) = 0 →
     Scroll.handleHistoryChange true (Some context) loc action s = s) ∧
  (Scroll.elementRef s = Some node →
   Scroll.read context loc identifier = p →
   Scroll.restore_element true (Some context) loc identifier s =
   Scroll.scrollTo p (Some node) s).
Proof.
  intros Hs Hp. split_and!.
  - intros e. destruct (scroll_request_served p e s Hs) as (? & ? & _). by split.
  - intros Hel Hread. unfold Scroll.handleHistoryChange.
    rewrite Hel, Hread. simpl. by destruct (Z.eqb_spec p 0).
  - intros action Hcase. unfold Scroll.handleHistoryChange.
    destruct (Scroll.elementRef s); [done|].
    destruct Hcase as [Hne|Hzero]; [by destruct action|].
    destruct action; try done. by rewrite Hzero.
  - intros Hel Hread. unfold Scroll.restore_element.
    rewrite Hel, Hread. simpl. by destruct (Z.eqb_spec p 0).
Qed.

(** X12. Unmounting takes a request back: if the hook is unmounted after a
    request made at rest, before the frame or between the frame and the
    timeout, nothing is pending any more, and whatever frames and timeouts
    come later, no scroll is made. *)
Theorem scroll_request_is_cancelled_by_unmount p e s later :
  Scroll.at_rest s →
  Scroll.run later (Scroll.cleanup (Scroll.scrollTo p e s)) =
    Scroll.cleanup (Scroll.scrollTo p e s) ∧
  Scroll.scrolled (Scroll.cleanup (Scroll.scrollTo p e s)) = Scroll.scrolled s ∧
  Scroll.run later
    (Scroll.cleanup (Scroll.frame_runs (Scroll.next_frame s) (Scroll.scrollTo p e s))) =
    Scroll.cleanup (Scroll.frame_runs (Scroll.next_frame s) (Scroll.scrollTo p e s)) ∧
  Scroll.scrolled
    (Scroll.cleanup (Scroll.frame_runs (Scroll.next_frame s) (Scroll.scrollTo p e s)))
    = Scroll.scrolled s.
Proof.
  destruct s as [el tid rid fr tm nf nt sc li]. intros [Hf Ht]. simpl in *. subst.
  assert (Scroll.at_rest
            (Scroll.cleanup
               (Scroll.scrollTo p e
                  {| Scroll.elementRef := el; Scroll.timeoutId := tid;
                     Scroll.rafId := rid; Scroll.frames := ∅;
                     Scroll.timeouts := ∅; Scroll.next_frame := nf;
                     Scroll.next_timeout := nt; Scroll.scrolled := sc;
                     Scroll.listening := li |}))) as Hrest1.
  { unfold Scroll.cleanup, Scroll.scrollTo, Scroll.cancelRaf, Scroll.at_rest. simpl.
    unfold Scroll.cancelTimeout. simpl.
    destruct tid; simpl; by rewrite delete_insert_eq, ?delete_empty. }
  assert (Scroll.at_rest
            (Scroll.cleanup
               (Scroll.frame_runs nf
                  (Scroll.scrollTo p e
                     {| Scroll.elementRef := el; Scroll.timeoutId := tid;
                        Scroll.rafId := rid; Scroll.frames := ∅;
                        Scroll.timeouts := ∅; Scroll.next_frame := nf;
                        Scroll.next_timeout := nt; Scroll.scrolled := sc;
                        Scroll.listening := li |})))) as Hrest2.
  { unfold Scroll.cleanup, Scroll.frame_runs, Scroll.scrollTo. simpl.
    rewrite lookup_insert_eq. simpl.
    unfold Scroll.cancelRaf, Scroll.cancelTimeout, Scroll.at_rest. simpl.
    by rewrite !delete_insert_eq, !delete_empty. }
  split_and!.
  - by apply scroll_at_rest_run.
  - unfold Scroll.cleanup, Scroll.cancelRaf, Scroll.cancelTimeout. simpl.
    by destruct tid.
  - by apply scroll_at_rest_run.
  - unfold Scroll.cleanup, Scroll.frame_runs, Scroll.scrollTo. simpl.
    by rewrite lookup_insert_eq.
Qed.

Lemma two_inserted_two_deleted {A} (i j : positive) (x y : A) :
  delete j (delete i (<[j := y]> (<[i := x]> (∅ : gmap positive A)))) = ∅.
Proof.
  apply map_empty. intros k.
  destruct (decide (k = j)) as [->|Hj]; [by rewrite lookup_delete_eq|].
  rewrite lookup_delete_ne by done.
  destruct (decide (k = i)) as [->|Hi]; [by rewrite lookup_delete_eq|].
  by rewrite lookup_delete_ne, !lookup_insert_ne by done.
Qed.

Lemma scroll_frame_runs_pending h r s :
  Scroll.frames s !! h = Some r →
  Scroll.frame_runs h s =
  {| Scroll.elementRef := Scroll.elementRef s;
     Scroll.timeoutId := Some (Scroll.next_timeout s);
     Scroll.rafId := Scroll.rafId s;
     Scroll.frames := delete h (Scroll.frames s);
     Scroll.timeouts := <[Scroll.next_timeout s := r]> (Scroll.timeouts s);
     Scroll.next_frame := Scroll.next_frame s;
     Scroll.next_timeout := Pos.succ (Scroll.next_timeout s);
     Scroll.scrolled := Scroll.scrolled s;
     Scroll.listening := Scroll.listening s |}.
Proof. intros Hh. unfold Scroll.frame_runs. by rewrite Hh. Qed.

Lemma scroll_timeout_elapses_pending h r s :
  Scroll.timeouts s !! h = Some r →
  Scroll.scrolled (Scroll.timeout_elapses h s) = Scroll.scrolled s ++ [r] ∧
  Scroll.frames (Scroll.timeout_elapses h s) = Scroll.frames s ∧
  Scroll.timeouts (Scroll.timeout_elapses h s) =
    match Scroll.timeoutId s with
    | Some t => delete t (delete h (Scroll.timeouts s))
    | None => delete h (Scroll.timeouts s)
    end.
Proof.
  intros Hh. unfold Scroll.timeout_elapses, Scroll.cancelTimeout. rewrite Hh.
  cbn [Scroll.timeoutId]. by destruct (Scroll.timeoutId s).
Qed.

(** X13. Two requests that overlap end at the first one.  When a second
    [scrollTo] is made before the frame of the first has come and both
    frames come before either timeout, the timeout of the first request
    scrolls to the first position and its [cancelTimeout] clears the timeout
    of the second, which is never served; and if the second timeout elapses
    first, the first one still follows it.  Either way the last scroll made
    is the one of the older request. *)
Theorem overlapping_scroll_requests_end_at_the_first p1 e1 p2 e2 s :
  Scroll.at_rest s →
  Scroll.scrolled
    (Scroll.run [Scroll.Frame (Scroll.next_frame s);
                 Scroll.Frame (Pos.succ (Scroll.next_frame s));
                 Scroll.Timeout (Scroll.next_timeout s)]
       (Scroll.scrollTo p2 e2 (Scroll.scrollTo p1 e1 s)))
  = Scroll.scrolled s ++ [(p1, e1)] ∧
  Scroll.at_rest
    (Scroll.run [Scroll.Frame (Scroll.next_frame s);
                 Scroll.Frame (Pos.succ (Scroll.next_frame s));
                 Scroll.Timeout (Scroll.next_timeout s)]
       (Scroll.scrollTo p2 e2 (Scroll.scrollTo p1 e1 s))) ∧
  Scroll.scrolled
    (Scroll.run [Scroll.Frame (Scroll.next_frame s);
                 Scroll.Frame (Pos.succ (Scroll.next_frame s));
                 Scroll.Timeout (Pos.succ (Scroll.next_timeout s));
                 Scroll.Timeout (Scroll.next_timeout s)]
       (Scroll.scrollTo p2 e2 (Scroll.scrollTo p1 e1 s)))
  = Scroll.scrolled s ++ [(p2, e2); (p1, e1)].
Proof.
  destruct s as [el tid rid fr tm nf nt sc li]. intros [Hf Ht].
  cbn [Scroll.frames Scroll.timeouts] in Hf, Ht. subst fr tm.
  pose proof (Pos.succ_discr nf) as Hnf. pose proof (Pos.succ_discr nt) as Hnt.
  cbn [Scroll.next_frame Scroll.next_timeout Scroll.scrolled].
  set (r1 := (p1, e1)). set (r2 := (p2, e2)).
  set (s2 := Scroll.scrollTo p2 e2 (Scroll.scrollTo p1 e1 _)).
  pose (s4 :=
    {| Scroll.elementRef := el; Scroll.timeoutId := Some (Pos.succ nt);
       Scroll.rafId := Some (Pos.succ nf);
       Scroll.frames :=
         delete (Pos.succ nf) (delete nf (<[Pos.succ nf := r2]> (<[nf := r1]> ∅)));
       Scroll.timeouts := <[Pos.succ nt := r2]> (<[nt := r1]> ∅);
       Scroll.next_frame := Pos.succ (Pos.succ nf);
       Scroll.next_timeout := Pos.succ (Pos.succ nt);
       Scroll.scrolled := sc; Scroll.listening := li |}).
  assert (Scroll.frame_runs (Pos.succ nf) (Scroll.frame_runs nf s2) = s4) as Hframes.
  { rewrite (scroll_frame_runs_pending nf r1 s2)
      by (subst s2; cbn [Scroll.frames Scroll.scrollTo Scroll.next_frame];
          by rewrite lookup_insert_ne, lookup_insert_eq).
    erewrite scroll_frame_runs_pending; [reflexivity|].
    cbn [Scroll.frames]. subst s2. cbn [Scroll.frames Scroll.scrollTo Scroll.next_frame].
    by rewrite lookup_delete_ne, lookup_insert_eq. }
  unfold Scroll.run. cbn [foldl Scroll.happen]. rewrite Hframes. clear Hframes.
  assert (Scroll.timeouts s4 !! nt = Some r1) as H1
    by (subst s4; cbn [Scroll.timeouts]; by rewrite lookup_insert_ne, lookup_insert_eq).
  assert (Scroll.timeouts s4 !! Pos.succ nt = Some r2) as H2
    by (subst s4; cbn [Scroll.timeouts]; by rewrite lookup_insert_eq).
  destruct (scroll_timeout_elapses_pending nt r1 s4 H1) as (Hs1 & Hf1 & Ht1).
  destruct (scroll_timeout_elapses_pending (Pos.succ nt) r2 s4 H2) as (Hs2 & Hf2 & Ht2).
  assert (Scroll.timeouts (Scroll.timeout_elapses (Pos.succ nt) s4) !! nt = Some r1)
    as H3.
  { rewrite Ht2. subst s4. cbn [Scroll.timeouts Scroll.timeoutId].
    by rewrite delete_delete_eq, lookup_delete_ne, lookup_insert_ne, lookup_insert_eq. }
  destruct (scroll_timeout_elapses_pending nt r1 _ H3) as (Hs3 & _ & _).
  split_and!.
  - rewrite Hs1. by subst s4.
  - split.
    + rewrite Hf1. subst s4. cbn [Scroll.frames]. apply two_inserted_two_deleted.
    + rewrite Ht1. subst s4. cbn [Scroll.timeouts Scroll.timeoutId].
      apply two_inserted_two_deleted.
  - rewrite Hs3, Hs2. subst s4. cbn [Scroll.scrolled]. by rewrite <-app_assoc.
Qed.

(** X14. The cleanup takes back the latest frame only.  When two requests
    were made before a frame came, unmounting cancels the second frame and
    leaves the first one pending: it still comes, sets its timeout, and the
    page is scrolled after the unmount. *)
Theorem unmount_leaves_the_older_frame p1 e1 p2 e2 s :
  Scroll.at_rest s →
  Scroll.frames (Scroll.cleanup (Scroll.scrollTo p2 e2 (Scroll.scrollTo p1 e1 s)))
  = {[ Scroll.next_frame s := (p1, e1) ]} ∧
  Scroll.listening
    (Scroll.cleanup (Scroll.scrollTo p2 e2 (Scroll.scrollTo p1 e1 s))) = false ∧
  Scroll.scrolled
    (Scroll.run [Scroll.Frame (Scroll.next_frame s);
                 Scroll.Timeout (Scroll.next_timeout s)]
       (Scroll.cleanup (Scroll.scrollTo p2 e2 (Scroll.scrollTo p1 e1 s))))
  = Scroll.scrolled s ++ [(p1, e1)].
Proof.
  destruct s as [el tid rid fr tm nf nt sc li]. intros [Hf Ht]. simpl in *. subst.
  pose proof (Pos.succ_discr nf) as Hnf.
  assert (delete (Pos.succ nf) (<[Pos.succ nf := (p2, e2)]>
            (<[nf := (p1, e1)]> (∅ : gmap positive Scroll.request)))
          = {[ nf := (p1, e1) ]}) as Hleft.
  { rewrite delete_insert_eq, delete_id, insert_empty; [done|].
    by rewrite lookup_insert_ne. }
  unfold Scroll.run, Scroll.cleanup, Scroll.scrollTo, Scroll.cancelRaf. simpl.
  unfold Scroll.cancelTimeout. simpl.
  destruct tid as [t|]; simpl; rewrite ?delete_empty, Hleft.
  - split_and!; [done|done|].
    unfold Scroll.frame_runs. simpl. rewrite lookup_singleton_eq. simpl.
    unfold Scroll.timeout_elapses. simpl. rewrite lookup_insert_eq. by simpl.
  - split_and!; [done|done|].
    unfold Scroll.frame_runs. simpl. rewrite lookup_singleton_eq. simpl.
    unfold Scroll.timeout_elapses. simpl. rewrite lookup_insert_eq. by simpl.
Qed.

(** ** The two getters *)

Lemma queue_recorded_enqueue key item w :
  queue_recorded w → batchRef w !! key = None →
  queue_recorded (_enqueueBatch key item w).
Proof.
  intros Hw Hnew v Hv. simpl in *. unfold set_add in Hv.
  assert (v ∈ queueRef w ∨ v = item) as [Hold| ->].
  { case_bool_decide; [by left|].
    apply elem_of_app in Hv as [?|?%list_elem_of_singleton]; eauto. }
  - destruct (Hw v Hold) as [k Hk]. exists k.
    rewrite lookup_insert_ne; [done|]. intros ->. congruence.
  - exists key. apply lookup_insert_eq.
Qed.

Lemma queue_recorded_consumeQueue options fuel w w' :
  queue_recorded w → _consumeQueue options fuel w = Some w' → queue_recorded w'.
Proof.
  apply (consumeQueue_keeps options queue_recorded).
  - intros key item w0. apply queue_recorded_enqueue.
  - done.
  - intros w0 Hw0. unfold clear_scheduler. by destruct (timeoutRef w0).
  - done.
  - intros w0 _ v Hv. by apply elem_of_nil in Hv.
Qed.

Lemma queue_recorded_step options w w' :
  queue_recorded w → step options w w' → queue_recorded w'.
Proof.
  intros Hw [fuel now data Hadd|fuel h Hh Hfire|fuel Hclean].
  - eapply (live_step_keeps options queue_recorded); [..|exact Hw|].
    + intros key item w0. apply queue_recorded_enqueue.
    + done.
    + intros w0 Hw0. unfold clear_scheduler. by destruct (timeoutRef w0).
    + done.
    + intros w0 _ v Hv. by apply elem_of_nil in Hv.
    + done.
    + by eapply live_addQueue.
  - eapply (live_step_keeps options queue_recorded); [..|exact Hw|].
    + intros key item w0. apply queue_recorded_enqueue.
    + done.
    + intros w0 Hw0. unfold clear_scheduler. by destruct (timeoutRef w0).
    + done.
    + intros w0 _ v Hv. by apply elem_of_nil in Hv.
    + done.
    + by eapply live_timer.
  - unfold _cleanupQueue in Hclean.
    destruct (_consumeQueue options fuel w) as [w1|]; [|done].
    injection Hclean as <-. intros v Hv. by apply elem_of_nil in Hv.
Qed.

(** X15. What [getQueue] returns is always part of what [getBatch]
    returns: in every run, with any consumer, each queued value is the value
    recorded in [batchRef] under some key (while [batchRef] may hold values
    that were flushed long ago). *)
Theorem queued_values_are_recorded options w :
  reachable options w →
  ∀ v, v ∈ getQueue w → ∃ k, getBatch w !! k = Some v.
Proof.
  change (reachable options w → queue_recorded w). revert w.
  apply (rtc_ind_r (λ w, queue_recorded w)).
  - intros v Hv. by apply elem_of_nil in Hv.
  - intros w1 w2 _ Hstep IH. by eapply queue_recorded_step.
Qed.

(** * Instances of the further properties *)

Lemma live_script_steps options fuel ops w w' :
  live_script ops = true → run options fuel ops w = Some w' →
  rtc (live_step options) w w'.
Proof.
  revert w. induction ops as [|o ops IH]; intros w Hlive; simpl.
  - intros [= <-]. apply rtc_refl.
  - simpl in Hlive. apply andb_true_iff in Hlive as [Ho Hlive].
    destruct (do_op options fuel o w) as [w1|] eqn:Hop; [|done]. intros Hrun.
    specialize (IH w1 Hlive Hrun).
    destruct o as [now data|h|]; [| |done]; simpl in Hop.
    + eapply rtc_l; [|exact IH]. by eapply live_addQueue.
    + destruct (timers w !! h) as [ms|] eqn:Hh.
      * eapply rtc_l; [|exact IH]. eapply live_timer; [|done]. by rewrite Hh.
      * unfold timer_fires in Hop. rewrite Hh in Hop. by injection Hop as <-.
Qed.

Lemma after_live options ops :
  live_script ops = true → rtc (live_step options) init (after options ops).
Proof.
  intros Hlive. unfold after.
  destruct (run options 0 ops init) as [w|] eqn:Hrun; simpl.
  - by eapply live_script_steps.
  - apply rtc_refl.
Qed.

Lemma seen_only_grows_until_teardown_witness :
  rtc (live_step (by_id None)) init
    (after (by_id None) [Add 0 (item 1 7); Add 1 (item 2 8)]) ∧
  getBatch init ⊆ getBatch (after (by_id None) [Add 0 (item 1 7); Add 1 (item 2 8)]) ∧
  ∃ t, trace (after (by_id None) [Add 0 (item 1 7); Add 1 (item 2 8)])
       = trace init ++ t ∧ NoDup (enqueued_keys t).
Proof.
  assert (live_script [Add 0 (item 1 7); Add 1 (item 2 8)] = true) as Hlive
    by reflexivity.
  pose proof (after_live (by_id None) _ Hlive) as Hsteps.
  destruct (seen_only_grows_until_teardown (by_id None) _ _ Hsteps)
    as (Hsub & t & Ht & Hnodup & _).
  split_and!; [done|done|]. by exists t.
Defined.

Lemma every_batch_is_a_nonempty_set_witness :
  reachable (by_id None) (after (by_id None) [Add 0 (item 1 7); Add 1 (item 2 8)]) ∧
  [VObj 1] ∈ batches (trace (after (by_id None) [Add 0 (item 1 7); Add 1 (item 2 8)])) ∧
  [VObj 1] ≠ [] ∧ NoDup [VObj 1].
Proof.
  pose proof (after_reachable (by_id None) [Add 0 (item 1 7); Add 1 (item 2 8)])
    as Hw.
  assert ([VObj 1] ∈ batches (trace
            (after (by_id None) [Add 0 (item 1 7); Add 1 (item 2 8)]))) as Hin
    by (vm_compute; apply list_elem_of_here).
  destruct (every_batch_is_a_nonempty_set (by_id None) _ Hw) as [_ Hb].
  destruct (Hb [VObj 1] Hin) as [Hne Hnodup].
  by split_and!.
Defined.

Lemma no_batch_exceeds_threshold_witness :
  quiet (by_id (Some 2)) ∧
  reachable (by_id (Some 2)) one_queued ∧
  (getQueue one_queued = [] ∨
   Z.of_nat (length (getQueue one_queued)) < THRESHOLD (by_id (Some 2))).
Proof.
  assert (quiet (by_id (Some 2))) as Hquiet
    by (intros cb items [= <-]; reflexivity).
  pose proof (after_reachable (by_id (Some 2)) [Add 0 (item 1 7)]) as Hw.
  destruct (no_batch_exceeds_threshold (by_id (Some 2)) one_queued Hquiet Hw)
    as [Hsize _].
  by split_and!.
Defined.

Lemma payload_queued_by_consumer_is_lost_witness :
  timers_tracked one_queued_calls_back ∧
  length (queueRef one_queued_calls_back) ≠ 0%nat ∧
  batchRef one_queued_calls_back !! key_of (calls_back (Some 3)) 5 (item 9 99) = None ∧
  Z.of_nat (length (set_add (hit (calls_back (Some 3)) (item 9 99))
                            (queueRef one_queued_calls_back)))
    < THRESHOLD (calls_back (Some 3)) ∧
  ∃ cb w',
    onBatchCallback (calls_back (Some 3)) = Some cb ∧
    cb (queueRef one_queued_calls_back) = [(5, item 9 99)] ∧
    _consumeQueue (calls_back (Some 3)) 0 one_queued_calls_back = Some w' ∧
    batches (trace w') = batches (trace one_queued_calls_back) ++ [[VObj 1]] ∧
    getQueue w' = [] ∧
    addQueue (calls_back (Some 3)) 0 5 (item 9 99) w' = Some w'.
Proof.
  assert (timers_tracked one_queued_calls_back) as Htracked
    by (apply (timers_tracked_reachable (calls_back (Some 3))), after_reachable).
  assert (length (queueRef one_queued_calls_back) ≠ 0%nat) as Hq
    by (vm_compute; discriminate).
  assert (batchRef one_queued_calls_back
            !! key_of (calls_back (Some 3)) 5 (item 9 99) = None) as Hnew
    by (vm_compute; reflexivity).
  assert (Z.of_nat (length (set_add (hit (calls_back (Some 3)) (item 9 99))
                                    (queueRef one_queued_calls_back)))
            < THRESHOLD (calls_back (Some 3))) as Hsize
    by (vm_compute; reflexivity).
  destruct (onBatchCallback (calls_back (Some 3))) as [cb|] eqn:Hcb;
    [|discriminate Hcb].
  assert (cb (queueRef one_queued_calls_back) = [(5, item 9 99)]) as Hanswer
    by (injection Hcb as <-; vm_compute; reflexivity).
  destruct (payload_queued_by_consumer_is_lost (calls_back (Some 3)) 0
              one_queued_calls_back cb 5 (item 9 99)
              Htracked Hcb Hq Hanswer Hnew Hsize)
    as (w' & w'' & Hw' & Hb & Hempty & _ & Hdrop & _).
  split_and!; [done|done|done|done|].
  exists cb, w'. split_and!; done.
Defined.

Lemma idle_callback_not_called_after_unmount_witness :
  Idle.browser_only [Idle.Timeout 1; Idle.IdlePeriod 1] ∧
  Idle.calls (Idle.env
    (Idle.run [Idle.Timeout 1; Idle.IdlePeriod 1]
       (Idle.unmount (Idle.run [Idle.Render idle_default] (Idle.initial false)))))
  = 0%nat ∧
  Idle.timeouts (Idle.env (Idle.run [Idle.Render idle_default] (Idle.initial false)))
  = {[ 1%positive := 50 ]}.
Proof.
  assert (Idle.browser_only [Idle.Timeout 1; Idle.IdlePeriod 1]) as Hlater
    by (repeat constructor).
  destruct (idle_callback_not_called_after_unmount false
              [Idle.Render idle_default] _ Hlater) as [_ Hcalls].
  split_and!; [done|by rewrite Hcalls|by vm_compute].
Defined.

Lemma page_view_is_page_type_sliced_witness :
  Page.__PAGE_TYPE__
    (Page.run true [Page.Effect cart_page; Page.Effect home_page]
       (Page.loaded "shop.example" None None)) = Some "home"%string ∧
  ∃ p, Page.Effect p ∈ [Page.Effect cart_page; Page.Effect home_page] ∧
       default ""%string (Page.pageType p) ≠ ""%string ∧
       "home"%string = Page.slice_1 (default ""%string (Page.pageType p)).
Proof.
  assert (Page.__PAGE_TYPE__
            (Page.run true [Page.Effect cart_page; Page.Effect home_page]
               (Page.loaded "shop.example" None None)) = Some "home"%string)
    as Hglobal by (vm_compute; reflexivity).
  destruct (page_view_is_page_type_sliced true _ _ _ _ _ (or_intror Hglobal))
    as (p & Hin & _ & _ & Htype & Hname).
  split; [done|]. by exists p.
Defined.

Lemma page_view_is_debounced_witness :
  Page.reports true home_page = true ∧
  ∃ h,
    Page.timers
      (Page.run true (Page.Effect <$> ([home_page; cart_page] ++ [home_page]))
         (Page.run true [] (Page.loaded "shop.example" None None)))
    = {[ h := (300, "home"%string) ]} ∧
    Page.page_views
      (Page.timer_elapses h
         (Page.run true (Page.Effect <$> ([home_page; cart_page] ++ [home_page]))
            (Page.run true [] (Page.loaded "shop.example" None None))))
    = ["home"%string].
Proof.
  assert (Page.reports true home_page = true) as Hrep by reflexivity.
  destruct (page_view_is_debounced true [] [home_page; cart_page] home_page
              "shop.example" None None Hrep) as (_ & h & _ & Htimers & Hviews & _).
  split; [done|]. by exists h.
Defined.

Lemma scroll_request_is_served_once_witness :
  Scroll.at_rest scroll_mounted ∧
  Scroll.read stored_120 at_key_k (default ""%string (Scroll.key at_key_k)) = 120 ∧
  Scroll.scrolled
    (Scroll.run [Scroll.Frame 1; Scroll.Timeout 1]
       (Scroll.handleHistoryChange true (Some stored_120) at_key_k Scroll.POP
          scroll_mounted)) = [(120, None)] ∧
  Scroll.handleHistoryChange true (Some stored_120) at_key_k Scroll.PUSH scroll_mounted
  = scroll_mounted.
Proof.
  assert (Scroll.at_rest scroll_mounted) as Hrest by (split; reflexivity).
  assert (120 ≠ 0) as Hp by discriminate.
  assert (Scroll.read stored_120 at_key_k (default ""%string (Scroll.key at_key_k))
          = 120) as Hread by reflexivity.
  destruct (scroll_request_is_served_once stored_120 at_key_k "k" 0%nat 120
              scroll_mounted Hrest Hp) as (Hserved & Hpop & Hother & _).
  destruct (Hserved None) as [Hscrolled _].
  split_and!; [done|done| |].
  - rewrite (Hpop eq_refl Hread). exact Hscrolled.
  - apply Hother. by left.
Defined.

Lemma scroll_request_is_cancelled_by_unmount_witness :
  Scroll.at_rest scroll_mounted ∧
  Scroll.scrolled
    (Scroll.run [Scroll.Frame 1; Scroll.Timeout 1]
       (Scroll.cleanup (Scroll.scrollTo 120 None scroll_mounted))) = [] ∧
  Scroll.scrolled
    (Scroll.run [Scroll.Timeout 1]
       (Scroll.cleanup (Scroll.frame_runs 1 (Scroll.scrollTo 120 None scroll_mounted))))
  = [].
Proof.
  assert (Scroll.at_rest scroll_mounted) as Hrest by (split; reflexivity).
  destruct (scroll_request_is_cancelled_by_unmount 120 None scroll_mounted
              [Scroll.Frame 1; Scroll.Timeout 1] Hrest) as (Hrun1 & Hs1 & _ & _).
  destruct (scroll_request_is_cancelled_by_unmount 120 None scroll_mounted
              [Scroll.Timeout 1] Hrest) as (_ & _ & Hrun2 & Hs2).
  split_and!; [done| |].
  - by rewrite Hrun1, Hs1.
  - change (Scroll.next_frame scroll_mounted) with 1%positive in Hrun2, Hs2.
    by rewrite Hrun2, Hs2.
Defined.

Lemma overlapping_scroll_requests_end_at_the_first_witness :
  Scroll.at_rest scroll_mounted ∧
  Scroll.scrolled
    (Scroll.run [Scroll.Frame 1; Scroll.Frame 2; Scroll.Timeout 1]
       (Scroll.scrollTo 500 None (Scroll.scrollTo 120 None scroll_mounted)))
  = [(120, None)] ∧
  Scroll.at_rest
    (Scroll.run [Scroll.Frame 1; Scroll.Frame 2; Scroll.Timeout 1]
       (Scroll.scrollTo 500 None (Scroll.scrollTo 120 None scroll_mounted))) ∧
  Scroll.scrolled
    (Scroll.run [Scroll.Frame 1; Scroll.Frame 2; Scroll.Timeout 2; Scroll.Timeout 1]
       (Scroll.scrollTo 500 None (Scroll.scrollTo 120 None scroll_mounted)))
  = [(500, None); (120, None)].
Proof.
  assert (Scroll.at_rest scroll_mounted) as Hrest by (split; reflexivity).
  destruct (overlapping_scroll_requests_end_at_the_first 120 None 500 None
              scroll_mounted Hrest) as (Hfirst & Hnone & Hboth).
  by split_and!.
Defined.

Lemma unmount_leaves_the_older_frame_witness :
  Scroll.at_rest scroll_mounted ∧
  Scroll.scrolled
    (Scroll.run [Scroll.Frame 1; Scroll.Timeout 1]
       (Scroll.cleanup
          (Scroll.scrollTo 500 None (Scroll.scrollTo 120 None scroll_mounted))))
  = [(120, None)].
Proof.
  assert (Scroll.at_rest scroll_mounted) as Hrest by (split; reflexivity).
  destruct (unmount_leaves_the_older_frame 120 None 500 None scroll_mounted Hrest)
    as (_ & _ & Hscrolled).
  by split.
Defined.

Lemma queued_values_are_recorded_witness :
  reachable (by_id (Some 2)) one_queued ∧
  VObj 1 ∈ getQueue one_queued ∧
  ∃ k, getBatch one_queued !! k = Some (VObj 1).
Proof.
  pose proof (after_reachable (by_id (Some 2)) [Add 0 (item 1 7)]) as Hw.
  assert (VObj 1 ∈ getQueue one_queued) as Hin
    by (vm_compute; apply list_elem_of_here).
  destruct (queued_values_are_recorded (by_id (Some 2)) one_queued Hw (VObj 1) Hin)
    as [k Hk].
  split_and!; [done|done|]. by exists k.
Defined.
